(** * rehype-astro-images: asset resolution and file-name generation

    A shallow embedding of [src/index.js] (the [rehypeAstroImages] plugin and
    its helpers [getImageAssetFileName], [getImageHash],
    [generateAssetFileName], [renderNamePattern] and [absolutize]) together
    with the parts of the JavaScript platform the plugin relies on
    ([node:path] in its POSIX flavour, SHA-256 from [node:crypto],
    [String.prototype.replace] for the token regular expression and property
    lookup through [Object.prototype]).

    JavaScript strings are modelled by [string]; every character stands for
    one code unit.  The file system, the image service of Astro and the
    [URL] constructor are collected in a record [World]. *)

From Stdlib Require Import ZArith NArith Ascii String List Lia Bool.
From Stdlib Require Import Init.Byte DecimalString DecimalN.
From stdpp Require Import base option list gmap strings.

Set Warnings "-register-all".

Local Open Scope N_scope.
Local Open Scope nat_scope.

(** ** Exceptions and promise outcomes *)

(** The exceptions the modelled code can raise. *)
Inductive JsError :=
  | MetadataError (relativePath : string)
      (* new Error(`Failed to get metadata for image ${relativePath}`) *)
  | MultipleOutputsError
      (* new Error("We don't know how to handle multiple output options") *)
  | NotAFunction (type : string)
      (* TypeError: replacements[type] is not a function *)
  | GetterNotCallable (type : string)
      (* TypeError of Object.prototype.__defineGetter__ and __defineSetter__ *)
  | FsError (path : string)
      (* fs.readFileSync failed *)
  | InvalidUrl (input base : string)
      (* TypeError of the URL constructor *)
  | ServiceError (reason : string)
      (* rejection reported by imageMetadata or getImage *)
  | OutOfFuel.
      (* never raised by the code: the scanner below ran out of fuel *)

(** A computation that returns a value or throws. *)
Inductive Result (A : Type) :=
  | Ok (a : A)
  | Throw (e : JsError).
Arguments Ok {A} a.
Arguments Throw {A} e.

#[global] Instance Result_bind : MBind Result := fun A B k r =>
  match r with
  | Ok a => k a
  | Throw e => Throw e
  end.

#[global] Instance Result_ret : MRet Result := fun A a => Ok a.

(** [r] is an exception of the modelled code, not a shortage of fuel. *)
Definition throws {A} (r : Result A) : Prop :=
  exists e, r = Throw e /\ e <> OutOfFuel.

(** ** JavaScript strings *)

Module Js.

Definition slash : ascii := "/"%char.
Definition dot : ascii := "."%char.

Definition is_slash (c : ascii) : bool := Ascii.eqb c slash.
Definition is_dot (c : ascii) : bool := Ascii.eqb c dot.

(** [s.startsWith(p)] *)
Definition startsWith (s p : string) : bool := String.prefix p s.

(** [s.slice(0, n)] for an integer [n >= 0] *)
Definition slice_to (s : string) (n : nat) : string := String.substring 0 n s.

(** [s.slice(n)] and [s.substring(n)] for an integer [n >= 0] *)
Fixpoint slice_from (s : string) (n : nat) {struct n} : string :=
  match n, s with
  | O, _ => s
  | S n', String _ s' => slice_from s' n'
  | S _, EmptyString => EmptyString
  end.

(** Last code unit of a string, if any. *)
Fixpoint last_char (s : string) : option ascii :=
  match s with
  | EmptyString => None
  | String c EmptyString => Some c
  | String _ s' => last_char s'
  end.

Definition endsWithSlash (s : string) : bool :=
  match last_char s with
  | Some c => is_slash c
  | None => false
  end.

(** Truthiness of a string: only the empty string is falsy. *)
Definition truthy (s : string) : bool :=
  match s with EmptyString => false | _ => true end.

(** Every character satisfies [p]; some character is [c]. *)
Fixpoint all (p : ascii -> bool) (s : string) : bool :=
  match s with
  | EmptyString => true
  | String c s' => p c && all p s'
  end.

Fixpoint occurs (c : ascii) (s : string) : bool :=
  match s with
  | EmptyString => false
  | String c' s' => Ascii.eqb c' c || occurs c s'
  end.

(** Longest prefix whose characters satisfy [p], and the rest. *)
Fixpoint span (p : ascii -> bool) (s : string) : string * string :=
  match s with
  | EmptyString => (EmptyString, EmptyString)
  | String c s' =>
      if p c then let '(u, v) := span p s' in (String c u, v)
      else (EmptyString, s)
  end.

(** [\w] and [\d] of JavaScript regular expressions (no [u] or [i] flag). *)
Definition is_digit (c : ascii) : bool :=
  let n := nat_of_ascii c in (48 <=? n) && (n <=? 57).

Definition is_hex (c : ascii) : bool :=
  let n := nat_of_ascii c in
  ((48 <=? n) && (n <=? 57)) || ((97 <=? n) && (n <=? 102)).

Definition is_word (c : ascii) : bool :=
  let n := nat_of_ascii c in
  ((48 <=? n) && (n <=? 57)) || ((65 <=? n) && (n <=? 90))
  || ((97 <=? n) && (n <=? 122)) || (n =? 95).

(** [Number.parseInt] on a non-empty string of decimal digits (the only
    strings it is applied to).  The result is the exact integer; JavaScript
    rounds it to a double above 2^53, which no use below can observe except
    [number_to_string]. *)
Definition parseInt (digits : string) : N :=
  match NilEmpty.uint_of_string digits with
  | Some d => N.of_uint d
  | None => 0%N
  end.

(** [String(n)] for a non-negative integer below 2^53. *)
Definition number_to_string (n : N) : string :=
  NilEmpty.string_of_uint (N.to_uint n).

End Js.

(** ** node:path, POSIX flavour *)

Module Path.

(** [path.split('/')] *)
Fixpoint segments (s : string) : list string :=
  match s with
  | EmptyString => [EmptyString]
  | String c s' =>
      if Js.is_slash c then EmptyString :: segments s'
      else match segments s' with
           | h :: t => String c h :: t
           | [] => [String c EmptyString]
           end
  end.

(** One step of [normalizeString]: [stack] holds the segments kept so far,
    innermost first.  Empty segments and ["."] are dropped, [".."] removes
    the innermost segment unless that is itself [".."] or there is none;
    then it is kept only when [allowAboveRoot]. *)
Definition norm_step (allowAboveRoot : bool) (stack : list string)
    (seg : string) : list string :=
  if String.eqb seg "" || String.eqb seg "." then stack
  else if String.eqb seg ".." then
    match stack with
    | top :: below =>
        if String.eqb top ".."
        then (if allowAboveRoot then seg :: stack else stack)
        else below
    | [] => if allowAboveRoot then [seg] else []
    end
  else seg :: stack.

Definition normalizeString (path : string) (allowAboveRoot : bool) : string :=
  String.concat "/" (rev (fold_left (norm_step allowAboveRoot) (segments path) [])).

Definition isAbsolute (path : string) : bool :=
  match path with
  | String c _ => Js.is_slash c
  | EmptyString => false
  end.

(** The loop of [path.resolve], from the last argument to the first and
    then the working directory, until an absolute path has been seen. *)
Fixpoint resolve_loop (rev_args : list string) (resolvedPath : string)
    : string * bool :=
  match rev_args with
  | [] => (resolvedPath, false)
  | path :: rest =>
      if String.eqb path "" then resolve_loop rest resolvedPath
      else
        let resolvedPath' := path +:+ "/" +:+ resolvedPath in
        if isAbsolute path then (resolvedPath', true)
        else resolve_loop rest resolvedPath'
  end.

Definition resolve (cwd : string) (args : list string) : string :=
  let '(resolvedPath, resolvedAbsolute) := resolve_loop (rev args ++ [cwd])%list "" in
  let normalized := normalizeString resolvedPath (negb resolvedAbsolute) in
  if resolvedAbsolute then "/" +:+ normalized
  else if Js.truthy normalized then normalized else ".".

Definition normalize (path : string) : string :=
  if negb (Js.truthy path) then "."
  else
    let absolute := isAbsolute path in
    let trailingSeparator := Js.endsWithSlash path in
    let p := normalizeString path (negb absolute) in
    if negb (Js.truthy p) then
      (if absolute then "/" else if trailingSeparator then "./" else ".")
    else
      let p' := if trailingSeparator then p +:+ "/" else p in
      if absolute then "/" +:+ p' else p'.

Definition join (args : list string) : string :=
  match List.filter Js.truthy args with
  | [] => "."
  | nonempty => normalize (String.concat "/" nonempty)
  end.

(** [path.dirname]: the scan runs from the last character down to index 1.
    [rev_tail] holds the characters still to be scanned; the result is what
    is left of them below the separator that ends the scan. *)
Fixpoint dirname_scan (matchedSlash : bool) (rev_tail : list ascii)
    : option (list ascii) :=
  match rev_tail with
  | [] => None
  | c :: rest =>
      if Js.is_slash c
      then (if matchedSlash then dirname_scan true rest else Some rest)
      else dirname_scan false rest
  end.

Definition dirname (path : string) : string :=
  match path with
  | EmptyString => "."
  | String c0 tail =>
      let hasRoot := Js.is_slash c0 in
      match dirname_scan true (rev (list_ascii_of_string tail)) with
      | None => if hasRoot then "/" else "."
      | Some below =>
          if hasRoot && bool_decide (below = []) then "//"
          else String c0 (string_of_list_ascii (rev below))
      end
  end.

(** [path.basename] without a suffix: trailing separators are skipped, then
    the characters up to the next separator are the result. *)
Fixpoint drop_slashes (l : list ascii) : list ascii :=
  match l with
  | c :: rest => if Js.is_slash c then drop_slashes rest else l
  | [] => []
  end.

Fixpoint take_component (l : list ascii) : list ascii :=
  match l with
  | c :: rest => if Js.is_slash c then [] else c :: take_component rest
  | [] => []
  end.

Definition basename (path : string) : string :=
  string_of_list_ascii
    (rev (take_component (drop_slashes (rev (list_ascii_of_string path))))).

(** [path.extname], with the state of its backwards loop. *)
Record ExtState := {
  startDot : Z;
  startPart : Z;
  endIdx : Z;
  matchedSlash : bool;
  preDotState : Z
}.

Fixpoint extname_loop (rev_chars : list ascii) (i : Z) (st : ExtState)
    : ExtState :=
  match rev_chars with
  | [] => st
  | code :: rest =>
      if Js.is_slash code then
        if negb (matchedSlash st) then
          (* break *)
          {| startDot := startDot st; startPart := i + 1; endIdx := endIdx st;
             matchedSlash := matchedSlash st; preDotState := preDotState st |}
        else extname_loop rest (i - 1) st
      else
        let st1 :=
          if (endIdx st =? -1)%Z then
            {| startDot := startDot st; startPart := startPart st;
               endIdx := i + 1; matchedSlash := false;
               preDotState := preDotState st |}
          else st in
        let st2 :=
          if Js.is_dot code then
            if (startDot st1 =? -1)%Z then
              {| startDot := i; startPart := startPart st1;
                 endIdx := endIdx st1; matchedSlash := matchedSlash st1;
                 preDotState := preDotState st1 |}
            else if negb (preDotState st1 =? 1)%Z then
              {| startDot := startDot st1; startPart := startPart st1;
                 endIdx := endIdx st1; matchedSlash := matchedSlash st1;
                 preDotState := 1 |}
            else st1
          else if negb (startDot st1 =? -1)%Z then
            {| startDot := startDot st1; startPart := startPart st1;
               endIdx := endIdx st1; matchedSlash := matchedSlash st1;
               preDotState := -1 |}
          else st1 in
        extname_loop rest (i - 1) st2
  end.

Definition extname (path : string) : string :=
  let st := extname_loop (rev (list_ascii_of_string path))
              (Z.of_nat (String.length path) - 1)
              {| startDot := -1; startPart := 0; endIdx := -1;
                 matchedSlash := true; preDotState := 0 |} in
  if (startDot st =? -1)%Z || (endIdx st =? -1)%Z || (preDotState st =? 0)%Z
     || ((preDotState st =? 1)%Z && (startDot st =? endIdx st - 1)%Z
         && (startDot st =? startPart st + 1)%Z)
  then ""
  else String.substring (Z.to_nat (startDot st))
         (Z.to_nat (endIdx st - startDot st)) path.

End Path.

(** ** SHA-256 ([createHash('sha256').update(bytes).digest('hex')]) *)

Module Sha256.

Local Open Scope N_scope.

Definition wrap (x : N) : N := x mod 2 ^ 32.
Definition add32 (x y : N) : N := wrap (x + y).
Definition rotr (n x : N) : N :=
  N.lor (N.shiftr x n) (wrap (N.shiftl x (32 - n))).
Definition not32 (x : N) : N := N.lxor x 0xffffffff.

Definition Ch (x y z : N) : N := N.lxor (N.land x y) (N.land (not32 x) z).
Definition Maj (x y z : N) : N :=
  N.lxor (N.lxor (N.land x y) (N.land x z)) (N.land y z).
Definition bigSigma0 (x : N) : N :=
  N.lxor (N.lxor (rotr 2 x) (rotr 13 x)) (rotr 22 x).
Definition bigSigma1 (x : N) : N :=
  N.lxor (N.lxor (rotr 6 x) (rotr 11 x)) (rotr 25 x).
Definition smallSigma0 (x : N) : N :=
  N.lxor (N.lxor (rotr 7 x) (rotr 18 x)) (N.shiftr x 3).
Definition smallSigma1 (x : N) : N :=
  N.lxor (N.lxor (rotr 17 x) (rotr 19 x)) (N.shiftr x 10).

(** The constants of FIPS 180-4 are fractional parts of roots of the first
    primes: [root k bits x 0] is the largest [r] below [2 ^ bits] with
    [r ^ k <= x]. *)
Definition is_prime (n : N) : bool :=
  forallb (fun d => negb (n mod N.of_nat d =? 0)) (seq 2 (N.to_nat n - 2)).

Definition primes (count : nat) : list N :=
  firstn count (List.filter is_prime (map N.of_nat (seq 2 400))).

Fixpoint root (k : N) (bits : nat) (x r : N) : N :=
  match bits with
  | O => r
  | S bits' =>
      let candidate := r + 2 ^ N.of_nat bits' in
      root k bits' x (if candidate ^ k <=? x then candidate else r)
  end.

(** The first 32 bits of the fractional part of the [k]-th root of [p]. *)
Definition fraction_of_root (k p : N) : N :=
  wrap (root k 40 (p * 2 ^ (32 * k)) 0).

(** Cube roots of the first 64 primes. *)
Definition K : list N :=
  Eval vm_compute in map (fraction_of_root 3) (primes 64).

(** Square roots of the first 8 primes. *)
Definition H0 : list N :=
  Eval vm_compute in map (fraction_of_root 2) (primes 8).

(** The eight chaining words. *)
Record State := {
  h0 : N; h1 : N; h2 : N; h3 : N; h4 : N; h5 : N; h6 : N; h7 : N
}.

Definition initial : State :=
  {| h0 := nth 0 H0 0; h1 := nth 1 H0 0; h2 := nth 2 H0 0; h3 := nth 3 H0 0;
     h4 := nth 4 H0 0; h5 := nth 5 H0 0; h6 := nth 6 H0 0; h7 := nth 7 H0 0 |}.

(** Padding: a one bit, zeros up to 56 modulo 64 bytes, then the length in
    bits as a 64-bit big-endian number. *)
Definition be_bytes (count : nat) (x : N) : list N :=
  map (fun i => (N.shiftr x (8 * N.of_nat i)) mod 256) (rev (seq 0 count)).

Definition pad (message : list byte) : list N :=
  let len := length message in
  let zeros := ((64 + 55 - len mod 64) mod 64)%nat in
  (map Byte.to_N message ++ [0x80] ++ repeat 0 zeros
    ++ be_bytes 8 (8 * N.of_nat len))%list.

Fixpoint be_words (count : nat) (bytes : list N) : list N :=
  match count, bytes with
  | S count', b0 :: b1 :: b2 :: b3 :: rest =>
      (N.shiftl b0 24 + N.shiftl b1 16 + N.shiftl b2 8 + b3)
        :: be_words count' rest
  | _, _ => []
  end.

(** The message schedule, most recent word first: [w] holds
    W(t-1), W(t-2), ... and [extend] adds W(t). *)
Definition next_word (w : list N) : N :=
  add32 (add32 (smallSigma1 (nth 1 w 0)) (nth 6 w 0))
        (add32 (smallSigma0 (nth 14 w 0)) (nth 15 w 0)).

Fixpoint extend (count : nat) (w : list N) : list N :=
  match count with
  | O => w
  | S count' => extend count' (next_word w :: w)
  end.

Definition schedule (block : list N) : list N :=
  rev (extend 48 (rev (be_words 16 block))).

Definition round (st : State) (kw : N * N) : State :=
  let '(k, w) := kw in
  let t1 := add32 (add32 (add32 (h7 st) (bigSigma1 (h4 st)))
                         (add32 (Ch (h4 st) (h5 st) (h6 st)) k)) w in
  let t2 := add32 (bigSigma0 (h0 st)) (Maj (h0 st) (h1 st) (h2 st)) in
  {| h0 := add32 t1 t2; h1 := h0 st; h2 := h1 st; h3 := h2 st;
     h4 := add32 (h3 st) t1; h5 := h4 st; h6 := h5 st; h7 := h6 st |}.

Definition compress (st : State) (block : list N) : State :=
  let r := fold_left round (combine K (schedule block)) st in
  {| h0 := add32 (h0 st) (h0 r); h1 := add32 (h1 st) (h1 r);
     h2 := add32 (h2 st) (h2 r); h3 := add32 (h3 st) (h3 r);
     h4 := add32 (h4 st) (h4 r); h5 := add32 (h5 st) (h5 r);
     h6 := add32 (h6 st) (h6 r); h7 := add32 (h7 st) (h7 r) |}.

Fixpoint blocks (count : nat) (bytes : list N) (st : State) : State :=
  match count with
  | O => st
  | S count' => blocks count' (skipn 64 bytes) (compress st (firstn 64 bytes))
  end.

Definition digest (message : list byte) : State :=
  let padded := pad message in
  blocks (length padded / 64)%nat padded initial.

Definition hex_digit (x : N) : ascii :=
  nth (N.to_nat (x mod 16))
    [ "0"; "1"; "2"; "3"; "4"; "5"; "6"; "7";
      "8"; "9"; "a"; "b"; "c"; "d"; "e"; "f" ]%char "0"%char.

Definition hex_word (x : N) (tail : string) : string :=
  String (hex_digit (N.shiftr x 28)) (String (hex_digit (N.shiftr x 24))
 (String (hex_digit (N.shiftr x 20)) (String (hex_digit (N.shiftr x 16))
 (String (hex_digit (N.shiftr x 12)) (String (hex_digit (N.shiftr x 8))
 (String (hex_digit (N.shiftr x 4)) (String (hex_digit x) tail))))))).

Definition hex (st : State) : string :=
  hex_word (h0 st) (hex_word (h1 st) (hex_word (h2 st) (hex_word (h3 st)
 (hex_word (h4 st) (hex_word (h5 st) (hex_word (h6 st) (hex_word (h7 st)
  EmptyString))))))).

Definition digest_hex (message : list byte) : string := hex (digest message).

End Sha256.

(** ** Configuration and the outside world *)

(** The argument of a function-valued [assetFileNames]; [type] is always
    ['asset']. *)
Record AssetInfo := {
  name : string;
  source : list byte;
  type : string
}.

Inductive AssetFileNames :=
  | PatternString (pattern : string)
  | PatternFunction (f : AssetInfo -> string).

Record OutputOptions := { assetFileNames : option AssetFileNames }.

(** [build.rollupOptions.output] is one object or an array of them. *)
Inductive Output :=
  | SingleOutput (o : OutputOptions)
  | OutputArray (os : list OutputOptions).

Record RollupOptions := { output : option Output }.
Record BuildOptions := { rollupOptions : option RollupOptions }.
Record ViteConfig := { build : option BuildOptions }.

(** The plugin options.  A [URL] object given as [rootUrl] is represented by
    its href, which is never empty. *)
Record Options := {
  rootPath : string;
  rootUrl : option string;
  viteConfig : option ViteConfig
}.

(** What [imageMetadata] resolves to, without the [src] the plugin adds. *)
Record ImageMetadata := {
  width : N;
  height : N;
  format : string
}.

(** Everything outside the plugin.  A promise is represented by the way it
    settles: [Ok] when fulfilled, [Throw] when rejected.  [imageMetadata]
    takes the absolute path whose file URL the code passes; [getImage] takes
    the metadata and the [src] stored in it; [newURL input base] is
    [new URL(input, base).toString()], [None] when the constructor throws. *)
Record World := {
  cwd : string;
  existsSync : string -> bool;
  readFileSync : string -> option (list byte);
  imageMetadata : string -> Result (option ImageMetadata);
  getImage : ImageMetadata -> string -> Result string;
  newURL : string -> string -> option string
}.

(** ** Rendering of the asset file name *)

(** What a property of [replacements] can return, and its conversion to a
    string by [String.prototype.replace]. *)
Inductive JsValue :=
  | VString (s : string)
  | VUndefined
  | VBoolean (b : bool)
  | VPlainObject
  | VNumberObject (n : N).

Definition toString (v : JsValue) : string :=
  match v with
  | VString s => s
  | VUndefined => "undefined"
  | VBoolean true => "true"
  | VBoolean false => "false"
  | VPlainObject => "[object Object]"
  | VNumberObject n => Js.number_to_string n
  end.

(** A property found by [replacements[type]]: a function of the optional
    size, or a value that cannot be called. *)
Inductive Property :=
  | Callable (f : option N -> Result JsValue)
  | NotCallable.

(** The properties every object literal inherits from [Object.prototype],
    applied to the receiver [replacements], whose own keys are [ext],
    [extname], [hash] and [name]. *)
Definition objectPrototype (key : string) : option Property :=
  if String.eqb key "constructor" then
    Some (Callable (fun size =>
      Ok (match size with Some n => VNumberObject n | None => VPlainObject end)))
  else if String.eqb key "toString" || String.eqb key "toLocaleString" then
    Some (Callable (fun _ => Ok (VString "[object Object]")))
  else if String.eqb key "valueOf" then
    Some (Callable (fun _ => Ok VPlainObject))
  else if String.eqb key "hasOwnProperty" || String.eqb key "isPrototypeOf"
          || String.eqb key "propertyIsEnumerable" then
    Some (Callable (fun _ => Ok (VBoolean false)))
  else if String.eqb key "__defineGetter__" || String.eqb key "__defineSetter__" then
    Some (Callable (fun _ => Throw (GetterNotCallable key)))
  else if String.eqb key "__lookupGetter__" || String.eqb key "__lookupSetter__" then
    Some (Callable (fun _ => Ok VUndefined))
  else if String.eqb key "__proto__" then Some NotCallable
  else None.

(** The token syntax [\[(\w+)(:\d+)?]] matched at the start of [s]: the first
    group, the second group (with its colon) when it took part, and what
    follows the match.  Both repetitions are greedy and cannot give back a
    character, since what must follow them is outside their class. *)
Definition match_token (s : string) : option (string * option string * string) :=
  match s with
  | String c s1 =>
      if Ascii.eqb c "[" then
        let '(type, s2) := Js.span Js.is_word s1 in
        if Js.truthy type then
          match s2 with
          | String c2 s3 =>
              if Ascii.eqb c2 "]" then Some (type, None, s3)
              else if Ascii.eqb c2 ":" then
                let '(digits, s4) := Js.span Js.is_digit s3 in
                if Js.truthy digits then
                  match s4 with
                  | String c4 rest =>
                      if Ascii.eqb c4 "]"
                      then Some (type, Some (String ":" digits), rest)
                      else None
                  | EmptyString => None
                  end
                else None
              else None
          | EmptyString => None
          end
        else None
      else None
  | EmptyString => None
  end.

(** The text of a token: ["[type]"] or ["[type:digits]"]. *)
Definition token (type : string) (size : option string) : string :=
  "[" +:+ type
      +:+ match size with Some digits => ":" +:+ digits | None => "" end
      +:+ "]".

(** The callback of [renderNamePattern]:
    [replacements[type](size && Number.parseInt(size.slice(1)))]. *)
Definition replaceToken (replacements : string -> option Property)
    (type : string) (size : option string) : Result string :=
  match replacements type with
  | Some (Callable f) =>
      v ← f ((fun size => Js.parseInt (Js.slice_from size 1)) <$> size);
      Ok (toString v)
  | Some NotCallable | None => Throw (NotAFunction type)
  end.

(** [s.replace(/\[(\w+)(:\d+)?]/g, callback)]: matches are looked for from
    left to right and do not overlap; each step consumes a character, so
    fuel equal to the length of [s] is enough. *)
Fixpoint replaceTokens (fuel : nat) (replacements : string -> option Property)
    (s : string) : Result string :=
  match s with
  | EmptyString => Ok EmptyString
  | String c s' =>
      match fuel with
      | O => Throw OutOfFuel
      | S fuel' =>
          match match_token s with
          | Some (type, size, rest) =>
              replacement ← replaceToken replacements type size;
              out ← replaceTokens fuel' replacements rest;
              Ok (replacement +:+ out)
          | None =>
              out ← replaceTokens fuel' replacements s';
              Ok (String c out)
          end
      end
  end.

Definition renderNamePattern (pattern : string)
    (replacements : string -> option Property) : Result string :=
  replaceTokens (String.length pattern) replacements pattern.

Definition defaultHashSize : N := 8.

(** The object literal passed by [generateAssetFileName]: its four own
    properties, then the prototype chain. *)
Definition replacementsFor (name sourceHash : string) (key : string)
    : option Property :=
  if String.eqb key "ext" then
    Some (Callable (fun _ => Ok (VString (Js.slice_from (Path.extname name) 1))))
  else if String.eqb key "extname" then
    Some (Callable (fun _ => Ok (VString (Path.extname name))))
  else if String.eqb key "hash" then
    Some (Callable (fun size =>
      let size_or_default :=
        match size with
        | Some n => if (n =? 0)%N then defaultHashSize else n
        | None => defaultHashSize
        end in
      Ok (VString (Js.slice_to sourceHash
                     (Z.to_nat (Z.max 0 (Z.of_N size_or_default)))))))
  else if String.eqb key "name" then
    Some (Callable (fun _ =>
      Ok (VString (Js.slice_to name
            (Z.to_nat (Z.max 0 (Z.of_nat (String.length name)
                                - Z.of_nat (String.length (Path.extname name)))))))))
  else objectPrototype key.

Definition generateAssetFileName (name : string) (source : list byte)
    (sourceHash : string) (assetFileNames : AssetFileNames) : Result string :=
  renderNamePattern
    match assetFileNames with
    | PatternFunction f => f {| name := name; source := source; type := "asset" |}
    | PatternString pattern => pattern
    end
    (replacementsFor name sourceHash).

Definition getImageSource (w : World) (imagePath : string) : Result (list byte) :=
  match readFileSync w imagePath with
  | Some data => Ok data
  | None => Throw (FsError imagePath)
  end.

Definition getImageHash (imageSource : list byte) : string :=
  Js.slice_to (Sha256.digest_hex imageSource) (Z.to_nat (Z.max 0 8)).

(** [viteConfig?.build?.rollupOptions?.output] *)
Definition rollupOutput (viteConfig : option ViteConfig) : option Output :=
  c ← viteConfig; b ← build c; r ← rollupOptions b; output r.

Definition defaultAssetFileNames : AssetFileNames :=
  PatternString "assets/[name]-[hash][extname]".

(** [output?.assetFileNames || 'assets/[name]-[hash][extname]'] *)
Definition assetFileNamesOrDefault (o : option Output) : AssetFileNames :=
  match o with
  | Some (SingleOutput out) =>
      match assetFileNames out with
      | Some (PatternString pattern) =>
          if Js.truthy pattern then PatternString pattern
          else defaultAssetFileNames
      | Some (PatternFunction f) => PatternFunction f
      | None => defaultAssetFileNames
      end
  | Some (OutputArray _) | None => defaultAssetFileNames
  end.

Definition isArray (o : option Output) : bool :=
  match o with Some (OutputArray _) => true | _ => false end.

Definition getImageAssetFileName (w : World) (absolutePath : string)
    (viteConfig : option ViteConfig) : Result string :=
  source ← getImageSource w absolutePath;
  let sourceHash := getImageHash source in
  if isArray (rollupOutput viteConfig) then Throw MultipleOutputsError
  else
    generateAssetFileName (Path.basename absolutePath) source sourceHash
      (assetFileNamesOrDefault (rollupOutput viteConfig)).

Definition absolutize (path : string) : string :=
  if Js.startsWith path "/" then "/" +:+ path else path.

(** ** The document tree *)

(** Values of hast properties. *)
Inductive PropertyValue :=
  | PString (s : string)
  | PNumber (n : Z)
  | PBoolean (b : bool)
  | PList (l : list string)
  | PNull.

(** hast nodes.  A tree is a tree: no node object occurs twice in it. *)
Inductive Node :=
  | Root (children : list Node)
  | Element (tagName : string) (properties : gmap string PropertyValue)
      (children : list Node)
  | Text (value : string)
  | Comment (value : string)
  | Doctype.

(** A node object is identified by the child indices that lead to it from
    the root; [imageNodes] holds such addresses, so that writing through
    one of its entries writes into the tree. *)
Definition Address := list nat.

Definition childrenOf (n : Node) : list Node :=
  match n with
  | Root cs | Element _ _ cs => cs
  | _ => []
  end.

Definition withChildren (n : Node) (cs : list Node) : Node :=
  match n with
  | Root _ => Root cs
  | Element t p _ => Element t p cs
  | _ => n
  end.

Fixpoint nodeAt (tree : Node) (a : Address) : option Node :=
  match a with
  | [] => Some tree
  | i :: a' => c ← childrenOf tree !! i; nodeAt c a'
  end.

Fixpoint updateAt (f : Node -> Node) (tree : Node) (a : Address) : Node :=
  match a with
  | [] => f tree
  | i :: a' =>
      match childrenOf tree !! i with
      | Some c => withChildren tree (<[i := updateAt f c a']> (childrenOf tree))
      | None => tree
      end
  end.

(** [node.properties.src] when it is a string *)
Definition srcOf (n : Node) : option string :=
  match n with
  | Element _ properties _ =>
      match properties !! "src" with
      | Some (PString src) => Some src
      | _ => None
      end
  | _ => None
  end.

(** [node.properties.src = v] *)
Definition setSrc (v : string) (n : Node) : Node :=
  match n with
  | Element t properties cs => Element t (<["src" := PString v]> properties) cs
  | _ => n
  end.

Definition srcAt (tree : Node) (a : Address) : option string :=
  n ← nodeAt tree a; srcOf n.

Definition flatMapIndexed {A B} (f : nat -> A -> list B)
    : nat -> list A -> list B :=
  fix go (i : nat) (l : list A) : list B :=
    match l with
    | [] => []
    | x :: l' => (f i x ++ go (S i) l')%list
    end.

(** The nodes in the order [visit] of unist-util-visit reaches them
    (depth first, parents before children), with their addresses. *)
Fixpoint preorder (here : Address) (n : Node) : list (Address * Node) :=
  (here, n) ::
    match n with
    | Root cs | Element _ _ cs =>
        flatMapIndexed (fun i c => preorder (here ++ [i])%list c) 0 cs
    | _ => []
    end.

(** ** Maps in insertion order ([Map<string, string>]) *)

Module JsMap.

Definition t := list (string * string).

Fixpoint get (m : t) (k : string) : option string :=
  match m with
  | [] => None
  | (k', v) :: m' => if String.eqb k' k then Some v else get m' k
  end.

Definition has (m : t) (k : string) : bool :=
  match get m k with Some _ => true | None => false end.

Fixpoint set (m : t) (k v : string) : t :=
  match m with
  | [] => [(k, v)]
  | (k', v') :: m' =>
      if String.eqb k' k then (k, v) :: m' else (k', v') :: set m' k v
  end.

Definition keys (m : t) : list string := map fst m.

End JsMap.

(** ** The transformer *)

(** What [file.data.imagePaths] can hold. *)
Inductive ImagePaths :=
  | Undefined
  | SetOf (s : gset string)
  | ArrayOf (l : list string)
  | OtherValue.

Record VFile := {
  path : option string;
  imagePaths : ImagePaths
}.

(** The guard of lines 29-35: the set to work with, if the pass goes on. *)
Definition candidates (file : VFile) : option (string * gset string) :=
  match path file with
  | Some p =>
      if Js.truthy p then
        match imagePaths file with
        | SetOf s => if (size s =? 0)%nat then None else Some (p, s)
        | _ => None
        end
      else None
  | None => None
  end.

(** Lines 68-83. *)
Definition resolveAbsolutePath (w : World) (options : Options)
    (filePath src : string) : string :=
  if Js.startsWith src "~/assets/" then
    Path.resolve (cwd w)
      [rootPath options; "src"; "assets";
       Js.slice_from src (String.length "~/assets/")]
  else
    Path.resolve (cwd w) [Path.dirname filePath; src].

(** Lines 47-59: the [src] of a node the visitor does not skip. *)
Definition eligibleSrc (paths : gset string) (node : Node) : option string :=
  match node with
  | Element tagName _ _ =>
      if String.eqb tagName "img" then
        match srcOf node with
        | Some src =>
            if Js.truthy src && bool_decide (src ∈ paths) then Some src else None
        | None => None
        end
      else None
  | _ => None
  end.

Record Collected := {
  imageNodes : list Address;
  imagesToResolve : JsMap.t
}.

(** The visitor, lines 46-91. *)
Definition visitor (w : World) (options : Options) (filePath : string)
    (paths : gset string) (st : Collected) (visited : Address * Node)
    : Collected :=
  let '(address, node) := visited in
  match eligibleSrc paths node with
  | None => st
  | Some src =>
      if JsMap.has (imagesToResolve st) src then
        {| imageNodes := (imageNodes st ++ [address])%list;
           imagesToResolve := imagesToResolve st |}
      else
        let absolutePath := resolveAbsolutePath w options filePath src in
        if negb (existsSync w absolutePath) then st
        else
          {| imageNodes := (imageNodes st ++ [address])%list;
             imagesToResolve := JsMap.set (imagesToResolve st) src absolutePath |}
  end.

Definition collect (w : World) (options : Options) (filePath : string)
    (paths : gset string) (tree : Node) : Collected :=
  fold_left (visitor w options filePath paths) (preorder [] tree)
    {| imageNodes := []; imagesToResolve := [] |}.

(** One image promise, lines 97-112, with what it called on the way.
    [optimizerCall] is the asset path handed to [getImage], if the chain
    got that far. *)
Record PipelineRun := {
  relativePath : string;
  absolutePath : string;
  optimizerCall : option string;
  outcome : Result (string * string)
}.

Definition runPipeline (w : World) (options : Options)
    (entry : string * string) : PipelineRun :=
  let '(relativePath, absolutePath) := entry in
  match imageMetadata w absolutePath with
  | Throw e =>
      {| relativePath := relativePath; absolutePath := absolutePath;
         optimizerCall := None; outcome := Throw e |}
  | Ok None =>
      {| relativePath := relativePath; absolutePath := absolutePath;
         optimizerCall := None; outcome := Throw (MetadataError relativePath) |}
  | Ok (Some meta) =>
      match getImageAssetFileName w absolutePath (viteConfig options) with
      | Throw e =>
          {| relativePath := relativePath; absolutePath := absolutePath;
             optimizerCall := None; outcome := Throw e |}
      | Ok assetPath =>
          {| relativePath := relativePath; absolutePath := absolutePath;
             optimizerCall := Some assetPath;
             outcome := src ← getImage w meta assetPath; Ok (relativePath, src) |}
      end
  end.

(** Lines 117-124: the results of [Promise.allSettled], in order. *)
Definition processResult (resolvedImages : JsMap.t) (run : PipelineRun)
    : JsMap.t :=
  match outcome run with
  | Ok (k, v) => JsMap.set resolvedImages k v
  | Throw _ => resolvedImages
  end.

Definition warningsOf (runs : list PipelineRun) : list JsError :=
  omap (fun run => match outcome run with Ok _ => None | Throw e => Some e end) runs.

(** Lines 129-136: the value written to [node.properties.src]. *)
Definition finalSrc (w : World) (options : Options) (resolvedSrc : string)
    : Result string :=
  match rootUrl options with
  | Some base =>
      if Js.truthy base then
        match newURL w resolvedSrc base with
        | Some href => Ok href
        | None => Throw (InvalidUrl resolvedSrc base)
        end
      else Ok (absolutize resolvedSrc)
  | None => Ok (absolutize resolvedSrc)
  end.

(** Lines 127-137, for the node at [address]. *)
Definition rewriteNode (w : World) (options : Options) (resolvedImages : JsMap.t)
    (tree : Node) (address : Address) : Result Node :=
  match srcAt tree address with
  | Some src =>
      match JsMap.get resolvedImages src with
      | Some resolvedSrc =>
          if Js.truthy resolvedSrc then
            href ← finalSrc w options resolvedSrc;
            Ok (updateAt (setSrc href) tree address)
          else Ok tree
      | None => Ok tree
      end
  | None => Ok tree
  end.

(** The loop of lines 126-138; when an iteration throws, the nodes written
    before it stay written. *)
Fixpoint rewriteNodes (w : World) (options : Options) (resolvedImages : JsMap.t)
    (nodes : list Address) (tree : Node) : Node * option JsError :=
  match nodes with
  | [] => (tree, None)
  | address :: rest =>
      match rewriteNode w options resolvedImages tree address with
      | Ok tree' => rewriteNodes w options resolvedImages rest tree'
      | Throw e => (tree, Some e)
      end
  end.

(** What one call of the transformer leaves behind: the tree, the exception
    it rejected with (if any), the image promises it created, the map
    [resolvedImages] and the warnings it logged. *)
Record Pass := {
  treeAfter : Node;
  thrown : option JsError;
  runs : list PipelineRun;
  resolved : JsMap.t;
  warnings : list JsError
}.

Definition unchanged (tree : Node) : Pass :=
  {| treeAfter := tree; thrown := None; runs := []; resolved := [];
     warnings := [] |}.

Definition rehypeAstroImages (w : World) (options : Options) (tree : Node)
    (file : VFile) : Pass :=
  match candidates file with
  | None => unchanged tree
  | Some (filePath, paths) =>
      let st := collect w options filePath paths tree in
      let runs := map (runPipeline w options) (imagesToResolve st) in
      let resolvedImages := fold_left processResult runs [] in
      let rewritten :=
        rewriteNodes w options resolvedImages (imageNodes st) tree in
      {| treeAfter := rewritten.1; thrown := rewritten.2; runs := runs;
         resolved := resolvedImages; warnings := warningsOf runs |}
  end.

(** ** A sample project *)

Module Sample.

Definition files : list (string * list byte) :=
  [ ("/proj/src/pages/a.png", list_byte_of_string "AAAA");
    ("/proj/src/pages/b.png", list_byte_of_string "BBBB");
    ("/proj/src/assets/logo.png", list_byte_of_string "LOGO") ].

Definition lookupFile (p : string) : option (list byte) :=
  snd <$> find (fun entry => String.eqb (fst entry) p) files.

(** [b.png] is unreadable for the image service; the optimizer serves every
    asset from the site root; URLs are resolved against one origin. *)
Definition world : World := {|
  cwd := "/work";
  existsSync := fun p => bool_decide (is_Some (lookupFile p));
  readFileSync := lookupFile;
  imageMetadata := fun p =>
    if String.eqb p "/proj/src/pages/b.png" then Throw (ServiceError "corrupt header")
    else Ok (Some {| width := 640; height := 480; format := "png" |});
  getImage := fun _ assetPath => Ok ("/" +:+ assetPath);
  newURL := fun input base =>
    if String.eqb base "https://example.org/" && Js.startsWith input "/"
    then Some ("https://example.org" +:+ input) else None
|}.

Definition img (src : string) : Node :=
  Element "img" {[ "src" := PString src ]} [].

Definition document : Node :=
  Root [ Element "p" ∅ [img "./a.png"; Text "and"; img "a.png"; img "./a.png"];
         img "~/assets/logo.png"; img "b.png"; img "gone.png" ].

Definition references : gset string :=
  {[ "./a.png"; "a.png"; "~/assets/logo.png"; "b.png"; "gone.png" ]}.

Definition file : VFile :=
  {| path := Some "/proj/src/pages/post.md"; imagePaths := SetOf references |}.

Definition options : Options :=
  {| rootPath := "/proj"; rootUrl := None; viteConfig := None |}.

Definition withOutput (o : Output) : Options :=
  {| rootPath := "/proj"; rootUrl := None;
     viteConfig := Some {| build := Some {| rollupOptions :=
       Some {| output := Some o |} |} |} |}.

End Sample.

(** ** Notions used to state the properties *)

(** A token text that the regular expression matches as a whole: a
    non-empty name of word characters and, if present, a non-empty size of
    decimal digits. *)
Definition well_formed (type : string) (size : option string) : Prop :=
  Js.truthy type = true /\ Js.all Js.is_word type = true /\
  match size with
  | Some digits => Js.truthy digits = true /\ Js.all Js.is_digit digits = true
  | None => True
  end.

(** The reference with which a visited node enters [imageNodes]: it is
    eligible and its file exists. *)
Definition accepted (w : World) (options : Options) (filePath : string)
    (paths : gset string) (node : Node) : option string :=
  match eligibleSrc paths node with
  | Some src =>
      if existsSync w (resolveAbsolutePath w options filePath src)
      then Some src else None
  | None => None
  end.

Definition acceptedAddress (w : World) (options : Options) (filePath : string)
    (paths : gset string) (visited : Address * Node) : option Address :=
  match accepted w options filePath paths visited.2 with
  | Some _ => Some visited.1
  | None => None
  end.

(** What the visitor maintains while it goes through the nodes [l]. *)
Record collect_inv (w : World) (options : Options) (filePath : string)
    (paths : gset string) (l : list (Address * Node)) (st : Collected) : Prop := {
  inv_nodes : imageNodes st = omap (acceptedAddress w options filePath paths) l;
  inv_values : forall k v, JsMap.get (imagesToResolve st) k = Some v ->
    v = resolveAbsolutePath w options filePath k /\ existsSync w v = true
    /\ exists a n, (a, n) ∈ l /\ eligibleSrc paths n = Some k;
  inv_keys : forall a n r, (a, n) ∈ l ->
    accepted w options filePath paths n = Some r ->
    JsMap.has (imagesToResolve st) r = true;
  inv_NoDup : NoDup (JsMap.keys (imagesToResolve st))
}.

(** What the loop of lines 126-138 writes to a node whose [src] is [r]. *)
Definition written (w : World) (options : Options) (resolvedImages : JsMap.t)
    (r : string) : Result string :=
  match JsMap.get resolvedImages r with
  | Some resolvedSrc =>
      if Js.truthy resolvedSrc then finalSrc w options resolvedSrc else Ok r
  | None => Ok r
  end.

(** The members of [Object.prototype] that [replacements[type](size)] calls
    without an error. *)
Definition callableInherited : list string :=
  ["constructor"; "hasOwnProperty"; "isPrototypeOf"; "propertyIsEnumerable";
   "toLocaleString"; "toString"; "valueOf"; "__lookupGetter__"; "__lookupSetter__"].

(** ** Notions used to state further properties *)

(** The tree without its [src] properties: what the transformer must leave
    as it is. *)
Fixpoint eraseSrc (n : Node) : Node :=
  match n with
  | Root cs => Root (map eraseSrc cs)
  | Element t properties cs => Element t (delete "src" properties) (map eraseSrc cs)
  | _ => n
  end.

(** The entry a settled promise adds to [resolvedImages], if any. *)
Definition fulfilledEntry (run : PipelineRun) : option (string * string) :=
  match outcome run with
  | Ok entry => Some entry
  | Throw _ => None
  end.

(** The sample project with an image service that knows no image. *)
Definition worldWithoutMetadata : World := {|
  cwd := cwd Sample.world;
  existsSync := existsSync Sample.world;
  readFileSync := readFileSync Sample.world;
  imageMetadata := fun _ => Ok None;
  getImage := getImage Sample.world;
  newURL := newURL Sample.world
|}.

(** The sample project seen from a process that runs in [dir]. *)
Definition sampleWorldIn (dir : string) : World := {|
  cwd := dir;
  existsSync := existsSync Sample.world;
  readFileSync := readFileSync Sample.world;
  imageMetadata := imageMetadata Sample.world;
  getImage := getImage Sample.world;
  newURL := newURL Sample.world
|}.

(** A path segment that [normalizeString] keeps below the root. *)
Definition cleanSegment (segment : string) : Prop :=
  segment <> "" /\ segment <> "." /\ segment <> ".."
  /\ Js.occurs "/" segment = false.

(** The elements of a list in the order of their first occurrence. *)
Fixpoint firstOccurrences (l : list string) : list string :=
  match l with
  | [] => []
  | x :: rest => x :: filter (fun y => y <> x) (firstOccurrences rest)
  end.

(** The references of the accepted nodes, in document order. *)
Definition acceptedReferences (w : World) (options : Options) (filePath : string)
    (paths : gset string) (tree : Node) : list string :=
  omap (fun visited : Address * Node => accepted w options filePath paths visited.2)
    (preorder [] tree).

(** * Properties *)

#[local] Arguments String.append !_ _ : simpl nomatch.

(** ** Checks against known values *)

Example resolve_alias :
  Path.resolve "/cwd" ["/proj"; "src"; "assets"; "logo.png"] = "/proj/src/assets/logo.png".
Proof. reflexivity. Qed.

Example resolve_relative :
  Path.resolve "/cwd" [Path.dirname "/proj/src/pages/post.md"; "./img/a.png"]
  = "/proj/src/pages/img/a.png".
Proof. reflexivity. Qed.

Example resolve_dots : Path.resolve "/cwd" ["a/../../b"; ".."; "c/"] = "/c".
Proof. reflexivity. Qed.

Example join_keeps_trailing_separator :
  Path.join ["/proj"; "src"; "assets"; "a/b/"] = "/proj/src/assets/a/b/".
Proof. reflexivity. Qed.

Example extname_cases :
  map Path.extname
    ["photo.png"; ".bashrc"; "a."; ".."; "..."; "a.b.c"; "noext"; "x/y.z/"; "a.tar.gz"]
  = [".png"; ""; "."; ""; "."; ".c"; ""; ".z"; ".gz"].
Proof. reflexivity. Qed.

Example basename_cases :
  map Path.basename ["/a/b.png"; "/a/b//"; "/"; ""; "x"; "//x"]
  = ["b.png"; "b"; ""; ""; "x"; "x"].
Proof. reflexivity. Qed.

Example dirname_cases :
  map Path.dirname ["/a/b.png"; "/a/b//"; "/"; ""; "x"; "//x"; "a//b"; "/x"; "a/b/c"]
  = ["/a"; "/a"; "/"; "."; "."; "//"; "a/"; "/"; "a/b"].
Proof. reflexivity. Qed.

Example parseInt_leading_zero : Js.parseInt "0123" = 123%N.
Proof. reflexivity. Qed.

Example sha256_empty :
  Sha256.digest_hex []
  = "e3b0c44298fc1c149afbf4c8996fb92427ae41e4649b934ca495991b7852b855".
Proof. vm_compute. reflexivity. Qed.

Example sha256_abc :
  Sha256.digest_hex (list_byte_of_string "abc")
  = "ba7816bf8f01cfea414140de5dae2223b00361a396177a9cb410ff61f20015ad".
Proof. vm_compute. reflexivity. Qed.

Example sha256_one_block_boundary :
  Sha256.digest_hex (repeat "a"%byte 55)
  = "9f4390f8d30c2dd92ec9f095b65e2b9ae9b0a925a5258e241c9f1e910f734318"
  /\ Sha256.digest_hex (repeat "a"%byte 56)
  = "b35439a4ac6f0948b6d6f9e3c6af0f5f590ce20f1bde7090ef7970686ec6738a".
Proof. vm_compute. split; reflexivity. Qed.

Example render_spec_example :
  generateAssetFileName "photo.png" [] "abcdef1234"
    (PatternString "assets/[name]-[hash:4][extname]")
  = Ok "assets/photo-abcd.png".
Proof. vm_compute. reflexivity. Qed.

Example render_literal_brackets :
  generateAssetFileName "photo.png" [] "abcdef1234"
    (PatternString "a[b[name]-[hash:4x][ext]]")
  = Ok "a[bphoto-[hash:4x]png]".
Proof. vm_compute. reflexivity. Qed.

Example render_default_pattern :
  getImageAssetFileName Sample.world "/proj/src/pages/a.png" None
  = Ok "assets/a-63c1dd95.png".
Proof. vm_compute. reflexivity. Qed.

(** ** Strings *)

Lemma append_nil_r (s : string) : s +:+ "" = s.
Proof. induction s as [|c s IH]; simpl; [reflexivity | now rewrite IH]. Qed.

Lemma append_assoc (a b c : string) : (a +:+ b) +:+ c = a +:+ (b +:+ c).
Proof. induction a as [|x a IH]; simpl; [reflexivity | now rewrite IH]. Qed.

Lemma length_append (a b : string) :
  String.length (a +:+ b) = String.length a + String.length b.
Proof. induction a as [|x a IH]; simpl; [reflexivity | now rewrite IH]. Qed.

Lemma span_append p s u v : Js.span p s = (u, v) -> s = u +:+ v.
Proof.
  revert u v. induction s as [|c s IH]; simpl; intros u v H.
  - now inversion H.
  - destruct (p c).
    + destruct (Js.span p s) as [u' v'] eqn:E. inversion H; subst. simpl.
      f_equal. now apply IH.
    + now inversion H.
Qed.

(** A character outside the class stops the scan where it stands. *)
Lemma span_app_stop p a c b :
  p c = false ->
  Js.span p (a +:+ String c b) =
  (fst (Js.span p a), snd (Js.span p a) +:+ String c b).
Proof.
  intros Hc. induction a as [|x a IH]; simpl.
  - now rewrite Hc.
  - destruct (p x); [|reflexivity].
    rewrite IH. now destruct (Js.span p a).
Qed.

Lemma span_all p u c r :
  Js.all p u = true -> p c = false ->
  Js.span p (u +:+ String c r) = (u, String c r).
Proof.
  intros Hu Hc. induction u as [|x u IH]; simpl in *.
  - now rewrite Hc.
  - apply andb_true_iff in Hu as [Hx Hu]. rewrite Hx, (IH Hu). reflexivity.
Qed.

Lemma slice_to_slice_to s a b :
  Js.slice_to (Js.slice_to s b) a = Js.slice_to s (Nat.min a b).
Proof.
  unfold Js.slice_to. revert a b.
  induction s as [|c s IH]; intros [|a] [|b]; simpl; try reflexivity.
  now rewrite IH.
Qed.

Lemma length_slice_to s n :
  String.length (Js.slice_to s n) = Nat.min n (String.length s).
Proof.
  unfold Js.slice_to. revert n.
  induction s as [|c s IH]; intros [|n]; simpl; try reflexivity.
  now rewrite IH.
Qed.

Lemma all_slice_to p s n : Js.all p s = true -> Js.all p (Js.slice_to s n) = true.
Proof.
  unfold Js.slice_to. revert n.
  induction s as [|c s IH]; intros [|n]; simpl; try reflexivity.
  intros H. apply andb_true_iff in H as [Hc Hs]. rewrite Hc. now apply IH.
Qed.

(** ** Decimal numerals *)

Lemma string_of_uint_digits d : Js.all Js.is_digit (NilEmpty.string_of_uint d) = true.
Proof. induction d; simpl; try rewrite IHd; reflexivity. Qed.

Lemma number_to_string_digits n : Js.all Js.is_digit (Js.number_to_string n) = true.
Proof. apply string_of_uint_digits. Qed.

Lemma number_to_string_truthy n : Js.truthy (Js.number_to_string n) = true.
Proof.
  unfold Js.number_to_string.
  destruct n as [|p]; [reflexivity|]. simpl.
  pose proof (DecimalPos.Unsigned.to_uint_nonnil p) as H.
  destruct (Pos.to_uint p); simpl; congruence.
Qed.

Lemma parseInt_number_to_string n : Js.parseInt (Js.number_to_string n) = n.
Proof.
  unfold Js.parseInt, Js.number_to_string.
  rewrite NilEmpty.usu. apply DecimalN.Unsigned.of_to.
Qed.

(** ** SHA-256 digests *)

Lemma hex_digit_is_hex x : Js.is_hex (Sha256.hex_digit x) = true.
Proof.
  unfold Sha256.hex_digit.
  assert (N.to_nat (x mod 16) < 16) as H
    by (pose proof (N.mod_upper_bound x 16); lia).
  revert H. generalize (N.to_nat (x mod 16)). intros k Hk.
  do 16 (destruct k as [|k]; [reflexivity|]). lia.
Qed.

Lemma hex_length st : String.length (Sha256.hex st) = 64.
Proof. destruct st. reflexivity. Qed.

Lemma hex_is_hex st : Js.all Js.is_hex (Sha256.hex st) = true.
Proof.
  destruct st. unfold Sha256.hex, Sha256.hex_word. cbn [Js.all].
  rewrite !hex_digit_is_hex. reflexivity.
Qed.

Lemma digest_hex_length content : String.length (Sha256.digest_hex content) = 64.
Proof. apply hex_length. Qed.

Lemma digest_hex_is_hex content : Js.all Js.is_hex (Sha256.digest_hex content) = true.
Proof. apply hex_is_hex. Qed.

(** ** Rendering of name patterns *)

Ltac string_len :=
  cbn [String.length] in *;
  repeat (rewrite length_append in *; cbn [String.length] in *);
  lia.

#[local] Arguments match_token : simpl never.

Lemma throws_bind_l {A B} (r : Result A) (k : A -> Result B) :
  throws r -> throws (r ≫= k).
Proof. intros (e & -> & He). now exists e. Qed.

Lemma match_token_plain c s : Ascii.eqb c "[" = false -> match_token (String c s) = None.
Proof. intros H. unfold match_token. now rewrite H. Qed.

(** A pattern without an opening bracket is returned as it is. *)
Lemma replaceTokens_plain replacements fuel s :
  String.length s <= fuel -> Js.occurs "[" s = false ->
  replaceTokens fuel replacements s = Ok s.
Proof.
  revert fuel. induction s as [|c s IH]; intros fuel Hfuel Hs;
    [now destruct fuel|].
  simpl in *. apply orb_false_iff in Hs as [Hc Hs].
  destruct fuel as [|fuel]; [lia|]. cbn [replaceTokens].
  rewrite (match_token_plain _ _ Hc), IH by (lia || assumption). reflexivity.
Qed.

(** The text of a well-formed token is matched as a whole. *)
Lemma match_token_token type size after :
  well_formed type size ->
  match_token (token type size +:+ after) =
  Some (type, String ":"%char <$> size, after).
Proof.
  intros (Hne & Hword & Hsize). unfold token, match_token.
  destruct size as [digits|]; simpl.
  - destruct Hsize as [Hd Hdigits].
    rewrite !append_assoc. simpl.
    rewrite (span_all _ type ":" _ Hword eq_refl), Hne. simpl.
    rewrite !append_assoc. simpl.
    rewrite (span_all _ digits "]" _ Hdigits eq_refl), Hd. reflexivity.
  - rewrite !append_assoc. simpl.
    rewrite (span_all _ type "]" _ Hword eq_refl), Hne. reflexivity.
Qed.

(** A match that starts before an opening bracket ends before it. *)
Lemma match_token_before_bracket c before x type size rest :
  match_token (String c before +:+ String "[" x) = Some (type, size, rest) ->
  exists before', rest = before' +:+ String "[" x
                  /\ String.length before' < String.length (String c before).
Proof.
  unfold match_token. simpl. destruct (Ascii.eqb c "["); [|discriminate].
  rewrite (span_app_stop Js.is_word before "[" x eq_refl).
  destruct (Js.span Js.is_word before) as [u v] eqn:Ew. simpl.
  apply span_append in Ew. subst before.
  destruct (Js.truthy u); [|discriminate].
  destruct v as [|c2 v]; simpl; [discriminate|].
  destruct (Ascii.eqb c2 "]").
  { intros H; inversion H; subst. exists v. split; [reflexivity|].
    string_len. }
  destruct (Ascii.eqb c2 ":"); [|discriminate].
  rewrite (span_app_stop Js.is_digit v "[" x eq_refl).
  destruct (Js.span Js.is_digit v) as [d v4] eqn:Ed. simpl.
  apply span_append in Ed. subst v.
  destruct (Js.truthy d); [|discriminate].
  destruct v4 as [|c4 v4]; simpl; [discriminate|].
  destruct (Ascii.eqb c4 "]"); [|discriminate].
  intros H; inversion H; subst. exists v4. split; [reflexivity|].
  string_len.
Qed.

Section Replace.

Variable replacements : string -> option Property.

(** No property of the object reports a shortage of fuel. *)
Hypothesis no_fuel_error : forall type f size,
  replacements type = Some (Callable f) -> f size <> Throw OutOfFuel.

Lemma replaceToken_fuel type size :
  replaceToken replacements type size <> Throw OutOfFuel.
Proof.
  unfold replaceToken.
  destruct (replacements type) as [[f|]|] eqn:E; try discriminate.
  specialize (no_fuel_error _ _ (Js.parseInt ∘ (fun s => Js.slice_from s 1) <$> size) E).
  destruct size; simpl in *;
    match goal with |- context [f ?a] => destruct (f a) as [v|e] end;
    simpl; congruence.
Qed.

Lemma match_token_shorter s type size rest :
  match_token s = Some (type, size, rest) -> String.length rest < String.length s.
Proof.
  destruct s as [|c s]; [discriminate|]. unfold match_token.
  destruct (Ascii.eqb c "["); [|discriminate].
  destruct (Js.span Js.is_word s) as [u v] eqn:Ew.
  apply span_append in Ew. subst s.
  destruct (Js.truthy u); [|discriminate].
  destruct v as [|c2 v]; [discriminate|].
  destruct (Ascii.eqb c2 "]").
  { intros H; inversion H; subst. string_len. }
  destruct (Ascii.eqb c2 ":"); [|discriminate].
  destruct (Js.span Js.is_digit v) as [d v4] eqn:Ed.
  apply span_append in Ed. subst v.
  destruct (Js.truthy d); [|discriminate].
  destruct v4 as [|c4 v4]; [discriminate|].
  destruct (Ascii.eqb c4 "]"); [|discriminate].
  intros H; inversion H; subst. string_len.
Qed.

(** Fuel equal to the length of the pattern is never exhausted. *)
Lemma replaceTokens_fuel fuel s :
  String.length s <= fuel -> replaceTokens fuel replacements s <> Throw OutOfFuel.
Proof.
  revert s. induction fuel as [|fuel IH]; intros [|c s] Hfuel; simpl in *;
    try discriminate; try lia.
  destruct (match_token (String c s)) as [[[type size] rest]|] eqn:E.
  - pose proof (replaceToken_fuel type size) as Ht.
    destruct (replaceToken replacements type size) as [r|e]; simpl; [|congruence].
    apply match_token_shorter in E. simpl in E.
    specialize (IH rest ltac:(lia)).
    destruct (replaceTokens fuel replacements rest); simpl; congruence.
  - specialize (IH s ltac:(lia)).
    destruct (replaceTokens fuel replacements s); simpl; congruence.
Qed.

(** A token whose callback throws makes the whole replacement throw,
    wherever the token stands. *)
Lemma replaceTokens_throws fuel before type size after :
  well_formed type size ->
  throws (replaceToken replacements type (String ":"%char <$> size)) ->
  String.length (before +:+ token type size +:+ after) <= fuel ->
  throws (replaceTokens fuel replacements (before +:+ token type size +:+ after)).
Proof.
  intros Hwf Hthrows. revert before.
  induction fuel as [|fuel IH]; intros before Hfuel.
  { destruct before; unfold token in Hfuel; simpl in Hfuel; lia. }
  destruct before as [|c before].
  - change ("" +:+ token type size +:+ after) with (token type size +:+ after).
    assert (exists c s, token type size +:+ after = String c s) as (c & s & Es)
      by (unfold token; simpl; eauto).
    pose proof (match_token_token type size after Hwf) as Hm.
    rewrite Es in *. simpl. rewrite Hm. now apply throws_bind_l.
  - assert (exists x, token type size +:+ after = String "[" x) as (x & Ex)
      by (unfold token; simpl; eauto).
    rewrite Ex in *.
    change (String c before +:+ String "[" x) with (String c (before +:+ String "[" x)).
    cbn [replaceTokens].
    change (String c (before +:+ String "[" x)) with (String c before +:+ String "[" x).
    destruct (match_token (String c before +:+ String "[" x))
      as [[[type' size'] rest]|] eqn:E.
    + apply match_token_before_bracket in E as (before' & -> & Hlen).
      pose proof (replaceToken_fuel type' size') as Ht.
      destruct (replaceToken replacements type' size') as [r|e]; simpl.
      * destruct (IH before') as (e & He & Hne); [string_len|].
        rewrite He. simpl. now exists e.
      * exists e. split; [reflexivity | congruence].
    + destruct (IH before) as (e & He & Hne); [string_len|].
      rewrite He. simpl. now exists e.
Qed.

End Replace.

Lemma replacementsFor_fuel name sourceHash type f size :
  replacementsFor name sourceHash type = Some (Callable f) -> f size <> Throw OutOfFuel.
Proof.
  unfold replacementsFor, objectPrototype.
  repeat match goal with
         | |- context [if ?b then _ else _] => destruct b
         end; intros H; inversion H; subst; discriminate.
Qed.

(** Rendering always returns: a file name or an exception of the code. *)
Lemma generateAssetFileName_fuel name source sourceHash assetFileNames :
  generateAssetFileName name source sourceHash assetFileNames <> Throw OutOfFuel.
Proof.
  unfold generateAssetFileName, renderNamePattern.
  apply replaceTokens_fuel; [apply replacementsFor_fuel | reflexivity].
Qed.

Lemma replaceTokens_token replacements fuel type size after :
  well_formed type size ->
  String.length (token type size +:+ after) <= fuel ->
  replaceTokens fuel replacements (token type size +:+ after) =
  replacement ← replaceToken replacements type (String ":"%char <$> size);
  out ← replaceTokens (pred fuel) replacements after;
  Ok (replacement +:+ out).
Proof.
  intros Hwf Hfuel. pose proof (match_token_token type size after Hwf) as Hm.
  assert (exists c s, token type size +:+ after = String c s) as (c & s & Es)
    by (unfold token; simpl; eauto).
  rewrite Es in *. destruct fuel as [|fuel]; [simpl in Hfuel; lia|].
  simpl. now rewrite Hm.
Qed.

Lemma replaceTokens_empty replacements fuel : replaceTokens fuel replacements "" = Ok "".
Proof. now destruct fuel. Qed.

#[local] Arguments Js.parseInt : simpl never.
#[local] Arguments Js.slice_to : simpl never.

Lemma hash_replacement name sourceHash digits :
  replaceToken (replacementsFor name sourceHash) "hash" (Some (String ":" digits)) =
  Ok (Js.slice_to sourceHash
        (if (Js.parseInt digits =? 0)%N then 8 else N.to_nat (Js.parseInt digits))).
Proof.
  unfold replaceToken. simpl. f_equal. f_equal.
  destruct (N.eqb_spec (Js.parseInt digits) 0) as [_|Hn]; [reflexivity|].
  unfold defaultHashSize. lia.
Qed.

Lemma bare_hash_replacement name content sourceHash :
  generateAssetFileName name content sourceHash (PatternString (token "hash" None))
  = Ok (Js.slice_to sourceHash 8).
Proof.
  unfold generateAssetFileName, renderNamePattern.
  change (token "hash" None) with "[hash]". simpl.
  now rewrite append_nil_r.
Qed.

(** C5, as the code has it: [[hash:N]] is replaced by the first [N]
    characters of the SHA-256 hex digest of the content only for
    [1 <= N <= 8]; above 8 it yields the 8 characters [getImageHash] kept,
    and [N = 0] falls back to the default of 8, like the bare [[hash]]. All
    of them are hex digits. *)
Theorem hash_token_truncation (name : string) (content : list byte) (n : N) :
  let digest := Sha256.digest_hex content in
  let shown := if (n =? 0)%N then 8 else Nat.min (N.to_nat n) 8 in
  generateAssetFileName name content (getImageHash content)
    (PatternString (token "hash" (Some (Js.number_to_string n))))
  = Ok (Js.slice_to digest shown)
  /\ String.length (Js.slice_to digest shown) = shown
  /\ Js.all Js.is_hex (Js.slice_to digest shown) = true
  /\ generateAssetFileName name content (getImageHash content)
       (PatternString (token "hash" None))
     = Ok (Js.slice_to digest 8).
Proof.
  intros digest shown.
  assert (well_formed "hash" (Some (Js.number_to_string n))) as Hwf.
  { repeat split; auto using number_to_string_truthy, number_to_string_digits. }
  split; [|split; [|split]].
  - unfold generateAssetFileName, renderNamePattern.
    rewrite <- (append_nil_r (token _ _)) at 2.
    rewrite replaceTokens_token by (rewrite ?append_nil_r; auto).
    simpl fmap. rewrite hash_replacement, parseInt_number_to_string.
    rewrite replaceTokens_empty. simpl. rewrite append_nil_r.
    unfold getImageHash. rewrite slice_to_slice_to. f_equal. f_equal.
    subst shown. destruct (n =? 0)%N; reflexivity.
  - rewrite length_slice_to. subst digest. rewrite digest_hex_length.
    subst shown. destruct (n =? 0)%N; lia.
  - apply all_slice_to, digest_hex_is_hex.
  - rewrite bare_hash_replacement. unfold getImageHash.
    now rewrite slice_to_slice_to.
Qed.

(** C5 as stated fails: for the empty content, [[hash:12]] and [[hash:0]]
    are both replaced by 8 characters. *)
Lemma hash_token_truncation_counterexample :
  generateAssetFileName "photo.png" [] (getImageHash []) (PatternString "[hash:12]")
    = Ok "e3b0c442"
  /\ generateAssetFileName "photo.png" [] (getImageHash []) (PatternString "[hash:0]")
    = Ok "e3b0c442"
  /\ Sha256.digest_hex []
    = "e3b0c44298fc1c149afbf4c8996fb92427ae41e4649b934ca495991b7852b855".
Proof. vm_compute. repeat split. Qed.

(** C6, as the code has it: the string a function-valued pattern returns
    for the descriptor (name, source, type 'asset') is rendered like a
    template string; it is the file name as it is when it holds no opening
    bracket. *)
Theorem function_pattern_is_rendered (name : string) (source : list byte)
    (sourceHash : string) (f : AssetInfo -> string) :
  let returned := f {| name := name; source := source; type := "asset" |} in
  generateAssetFileName name source sourceHash (PatternFunction f)
  = generateAssetFileName name source sourceHash (PatternString returned)
  /\ (Js.occurs "[" returned = false ->
      generateAssetFileName name source sourceHash (PatternFunction f) = Ok returned).
Proof.
  intros returned. split; [reflexivity|]. intros Hplain.
  unfold generateAssetFileName, renderNamePattern.
  now apply replaceTokens_plain.
Qed.

(** A function that returns no placeholder names the file itself. *)
Lemma function_pattern_is_rendered_witness :
  generateAssetFileName "photo.png" [] "abcdef12"
    (PatternFunction (fun info => "img/" +:+ name info))
  = Ok "img/photo.png".
Proof.
  apply (function_pattern_is_rendered "photo.png" [] "abcdef12"
           (fun info => "img/" +:+ name info)).
  reflexivity.
Defined.

(** C6 as stated fails: placeholders in the returned string are
    substituted. *)
Lemma function_pattern_counterexample :
  let f := fun info : AssetInfo => "[name]-[hash][extname]" in
  f {| name := "photo.png"; source := []; type := "asset" |}
    = "[name]-[hash][extname]"
  /\ generateAssetFileName "photo.png" [] "abcdef12" (PatternFunction f)
    = Ok "photo-abcdef12.png".
Proof. vm_compute. split; reflexivity. Qed.

(** The callback throws for every name that is no key of [replacements]
    and no callable member of its prototype: there is no such property,
    it is no function ([__proto__]), or the function refuses its argument
    ([__defineGetter__], [__defineSetter__]). *)
Lemma replaceToken_unknown name sourceHash type size :
  type ∉ ["name"; "ext"; "extname"; "hash"] ->
  type ∉ callableInherited ->
  throws (replaceToken (replacementsFor name sourceHash) type size).
Proof.
  intros Hown Hcallable. unfold replaceToken, replacementsFor.
  repeat match goal with
         | |- context [String.eqb type ?k] =>
             destruct (String.eqb_spec type k) as [->|_];
             [exfalso; apply Hown;
              repeat first [apply list_elem_of_here | apply list_elem_of_further]|]
         end.
  unfold objectPrototype, callableInherited in *.
  repeat match goal with
         | |- context [String.eqb type ?k] =>
             destruct (String.eqb_spec type k) as [->|_];
             [first [ solve [exfalso; apply Hcallable;
                             repeat first [apply list_elem_of_here
                                          | apply list_elem_of_further]]
                    | simpl; eexists; split; [reflexivity | discriminate] ]|]
         end.
  simpl. eexists. split; [reflexivity | discriminate].
Qed.

(** C8, as the code has it: a token whose name is none of [name], [ext],
    [extname], [hash] makes rendering throw, wherever it stands in the
    pattern, unless the name is one of the nine members of
    [Object.prototype] that can be called without an error; for those the
    token is replaced and no error is raised. *)
Theorem unknown_placeholder_throws (name : string) (source : list byte)
    (sourceHash type : string) (size : option string) :
  well_formed type size ->
  type ∉ ["name"; "ext"; "extname"; "hash"] ->
  (type ∉ callableInherited ->
   forall before after,
     throws (generateAssetFileName name source sourceHash
               (PatternString (before +:+ token type size +:+ after))))
  /\ (type ∈ callableInherited ->
      exists out,
        generateAssetFileName name source sourceHash (PatternString (token type size))
        = Ok out).
Proof.
  intros Hwf Hown. split.
  - intros Hcallable before after.
    unfold generateAssetFileName, renderNamePattern.
    apply (replaceTokens_throws _ (replacementsFor_fuel name sourceHash));
      [assumption | | reflexivity].
    now apply replaceToken_unknown.
  - intros Hcallable. unfold generateAssetFileName, renderNamePattern.
    replace (token type size) with (token type size +:+ "") by apply append_nil_r.
    rewrite replaceTokens_token by (assumption || reflexivity).
    unfold callableInherited in Hcallable.
    repeat (apply elem_of_cons in Hcallable as [->|Hcallable];
            [destruct size; simpl; eexists; reflexivity|]).
    inversion Hcallable.
Qed.

(** [[variant:2]] between two known tokens. *)
Lemma unknown_placeholder_throws_witness :
  throws (generateAssetFileName "photo.png" [] "abcdef12"
            (PatternString "assets/[name]-[variant:2][extname]")).
Proof.
  destruct (unknown_placeholder_throws "photo.png" [] "abcdef12" "variant" (Some "2"))
    as [Hthrows _].
  - now vm_compute.
  - intros H. repeat (apply elem_of_cons in H as [H|H]; [discriminate|]).
    inversion H.
  - apply (Hthrows ltac:(intros H; repeat (apply elem_of_cons in H as [H|H]; [discriminate|]); inversion H)
             "assets/[name]-" "[extname]").
Defined.

(** C8 as stated fails: [[toString]] is found on the prototype chain and
    replaced without an error. *)
Lemma unknown_placeholder_counterexample :
  generateAssetFileName "photo.png" [] "abcdef12"
    (PatternString "assets/[name]-[toString][extname]")
  = Ok "assets/photo-[object Object].png".
Proof. vm_compute. reflexivity. Qed.

(** ** Paths *)

Lemma segments_nonempty s : Path.segments s <> [].
Proof.
  destruct s as [|c s]; simpl; [discriminate|].
  destruct (Js.is_slash c); [discriminate|].
  destruct (Path.segments s); discriminate.
Qed.

Lemma segments_app_slash s : Path.segments (s +:+ "/") = (Path.segments s ++ [""])%list.
Proof.
  induction s as [|c s IH]; [reflexivity|]. simpl.
  rewrite IH. destruct (Js.is_slash c); [reflexivity|].
  pose proof (segments_nonempty s).
  destruct (Path.segments s); [contradiction | reflexivity].
Qed.

(** A trailing separator does not change the normal form. *)
Lemma normalizeString_app_slash s allowAboveRoot :
  Path.normalizeString (s +:+ "/") allowAboveRoot = Path.normalizeString s allowAboveRoot.
Proof.
  unfold Path.normalizeString. now rewrite segments_app_slash, fold_left_app.
Qed.

Lemma last_char_append a c b : Js.last_char (a +:+ String c b) = Js.last_char (String c b).
Proof.
  induction a as [|x a IH]; [reflexivity|].
  change (String x a +:+ String c b) with (String x (a +:+ String c b)).
  cbn [Js.last_char]. rewrite IH.
  destruct (a +:+ String c b) eqn:E; [|reflexivity].
  destruct a; discriminate.
Qed.

Lemma endsWithSlash_append a b :
  Js.truthy b = true -> Js.endsWithSlash (a +:+ b) = Js.endsWithSlash b.
Proof.
  destruct b as [|c b]; [discriminate|]. intros _.
  unfold Js.endsWithSlash. now rewrite last_char_append.
Qed.

Lemma resolve_loop_empty rest acc :
  Path.resolve_loop ("" :: rest) acc = Path.resolve_loop rest acc.
Proof. reflexivity. Qed.

Lemma resolve_loop_relative p rest acc :
  Js.truthy p = true -> Path.isAbsolute p = false ->
  Path.resolve_loop (p :: rest) acc = Path.resolve_loop rest (p +:+ "/" +:+ acc).
Proof. destruct p; [discriminate|]. intros _ H. cbn [Path.resolve_loop String.eqb]. now rewrite H. Qed.

Lemma resolve_loop_absolute p rest acc :
  Path.isAbsolute p = true ->
  Path.resolve_loop (p :: rest) acc = (p +:+ "/" +:+ acc, true).
Proof. destruct p; [discriminate|]. intros H. cbn [Path.resolve_loop String.eqb]. now rewrite H. Qed.

Lemma normalize_absolute p :
  Path.isAbsolute p = true -> Js.endsWithSlash p = false ->
  Path.normalize p = "/" +:+ Path.normalizeString p false.
Proof.
  intros Habs Hend. unfold Path.normalize. rewrite Habs, Hend.
  destruct p; [discriminate|]. cbn [Js.truthy negb].
  destruct (Path.normalizeString _ _); reflexivity.
Qed.

Lemma isAbsolute_append a b :
  Path.isAbsolute a = true -> Path.isAbsolute (a +:+ b) = true.
Proof. now destruct a. Qed.

(** [path.resolve] and [path.join] agree on an absolute root followed by
    relative parts, the last of which does not end in a separator. *)
Lemma resolve_alias_join cwd root remainder :
  Path.isAbsolute root = true ->
  Path.isAbsolute remainder = false ->
  Js.endsWithSlash remainder = false ->
  Path.resolve cwd [root; "src"; "assets"; remainder]
  = Path.join [root; "src"; "assets"; remainder].
Proof.
  intros Hroot Hrel Hend.
  assert (Js.truthy root = true) as Hne by now destruct root.
  unfold Path.resolve, Path.join. cbn [rev app List.filter]. rewrite Hne.
  cbn [Js.truthy].
  destruct remainder as [|c remainder].
  - cbn [Js.truthy]. rewrite resolve_loop_empty.
    rewrite !resolve_loop_relative, resolve_loop_absolute by (reflexivity || assumption).
    cbn [negb String.concat].
    replace (root +:+ "/" +:+ "src" +:+ "/" +:+ "assets" +:+ "/" +:+ "")
      with ((root +:+ "/" +:+ "src" +:+ "/" +:+ "assets") +:+ "/")
      by (now rewrite !append_assoc).
    rewrite normalizeString_app_slash, normalize_absolute; try reflexivity.
    + now apply isAbsolute_append.
    + now rewrite endsWithSlash_append.
  - cbn [Js.truthy].
    rewrite !resolve_loop_relative, resolve_loop_absolute by (reflexivity || assumption).
    cbn [negb String.concat].
    replace (root +:+ "/" +:+ "src" +:+ "/" +:+ "assets" +:+ "/"
               +:+ String c remainder +:+ "/" +:+ "")
      with ((root +:+ "/" +:+ "src" +:+ "/" +:+ "assets" +:+ "/"
               +:+ String c remainder) +:+ "/")
      by (now rewrite !append_assoc).
    rewrite normalizeString_app_slash, normalize_absolute; try reflexivity.
    + now apply isAbsolute_append.
    + replace (root +:+ "/" +:+ "src" +:+ "/" +:+ "assets" +:+ "/" +:+ String c remainder)
        with ((root +:+ "/src/assets/") +:+ String c remainder)
        by (now rewrite !append_assoc).
      now rewrite endsWithSlash_append.
Qed.

Lemma startsWith_alias remainder :
  Js.startsWith ("~/assets/" +:+ remainder) "~/assets/" = true
  /\ Js.slice_from ("~/assets/" +:+ remainder) (String.length "~/assets/") = remainder.
Proof. split; [now destruct remainder | reflexivity]. Qed.

(** C4, as the code has it: an alias reference is resolved with
    [path.resolve] from the root, [src], [assets] and the remainder, which
    is their join when the root is absolute and the remainder neither
    starts nor ends with a separator; any other reference is resolved
    against the directory of the document. *)
Theorem alias_and_relative_resolution (w : World) (options : Options)
    (filePath : string) :
  (forall remainder,
     resolveAbsolutePath w options filePath ("~/assets/" +:+ remainder)
     = Path.resolve (cwd w) [rootPath options; "src"; "assets"; remainder]
     /\ (Path.isAbsolute (rootPath options) = true ->
         Path.isAbsolute remainder = false ->
         Js.endsWithSlash remainder = false ->
         resolveAbsolutePath w options filePath ("~/assets/" +:+ remainder)
         = Path.join [rootPath options; "src"; "assets"; remainder]))
  /\ forall src, Js.startsWith src "~/assets/" = false ->
       resolveAbsolutePath w options filePath src
       = Path.resolve (cwd w) [Path.dirname filePath; src].
Proof.
  split.
  - intros remainder.
    assert (resolveAbsolutePath w options filePath ("~/assets/" +:+ remainder)
            = Path.resolve (cwd w) [rootPath options; "src"; "assets"; remainder])
      as Hresolve.
    { unfold resolveAbsolutePath. now destruct (startsWith_alias remainder) as [-> ->]. }
    split; [exact Hresolve|]. intros Hroot Hrel Hend. rewrite Hresolve.
    now apply resolve_alias_join.
  - intros src Hsrc. unfold resolveAbsolutePath. now rewrite Hsrc.
Qed.

(** The two examples of the specification. *)
Lemma alias_and_relative_resolution_witness :
  resolveAbsolutePath Sample.world Sample.options "/proj/src/pages/post.md"
    "~/assets/logo.png" = Path.join ["/proj"; "src"; "assets"; "logo.png"]
  /\ resolveAbsolutePath Sample.world Sample.options "/proj/src/pages/post.md"
    "./img/a.png" = "/proj/src/pages/img/a.png".
Proof.
  destruct (alias_and_relative_resolution Sample.world Sample.options
              "/proj/src/pages/post.md") as [Halias Hrelative].
  split.
  - exact (proj2 (Halias "logo.png") eq_refl eq_refl eq_refl).
  - exact (Hrelative "./img/a.png" eq_refl).
Defined.

(** C4 as stated fails: a remainder that starts with a separator replaces
    the root instead of being joined to it. *)
Lemma alias_resolution_counterexample :
  resolveAbsolutePath Sample.world Sample.options "/proj/src/pages/post.md"
    "~/assets//etc/logo.png" = "/etc/logo.png"
  /\ Path.join ["/proj"; "src"; "assets"; "/etc/logo.png"]
     = "/proj/src/assets/etc/logo.png".
Proof. vm_compute. split; reflexivity. Qed.

(** ** Trees and addresses *)

Lemma Node_ind' (P : Node -> Prop) :
  (forall cs, Forall P cs -> P (Root cs)) ->
  (forall t p cs, Forall P cs -> P (Element t p cs)) ->
  (forall v, P (Text v)) ->
  (forall v, P (Comment v)) ->
  P Doctype ->
  forall n, P n.
Proof.
  intros HRoot HElement HText HComment HDoctype.
  fix IH 1. intros [cs|t p cs|v|v|].
  - apply HRoot. induction cs as [|c cs IHcs]; constructor; [apply IH | exact IHcs].
  - apply HElement. induction cs as [|c cs IHcs]; constructor; [apply IH | exact IHcs].
  - apply HText.
  - apply HComment.
  - apply HDoctype.
Qed.

Lemma preorder_unfold here n :
  preorder here n =
  (here, n) :: flatMapIndexed (fun i c => preorder (here ++ [i])%list c) 0 (childrenOf n).
Proof. destruct n; reflexivity. Qed.

Lemma elem_of_flatMapIndexed {A B} (f : nat -> A -> list B) i l x :
  x ∈ flatMapIndexed f i l <-> exists j c, l !! j = Some c /\ x ∈ f (i + j) c.
Proof.
  revert i. induction l as [|c l IH]; intros i; simpl.
  - split; [intros H; inversion H | intros (j & c & H & _); discriminate].
  - rewrite elem_of_app, IH. split.
    + intros [H|(j & c' & Hj & H)].
      * exists 0, c. rewrite Nat.add_0_r. auto.
      * exists (S j), c'. rewrite Nat.add_succ_r. auto.
    + intros ([|j] & c' & Hj & H); simpl in Hj.
      * inversion Hj; subst. rewrite Nat.add_0_r in H. auto.
      * right. exists j, c'. rewrite Nat.add_succ_r in H. auto.
Qed.

(** [visit] reaches a node at the address that leads to it. *)
Lemma preorder_lookup n : forall here a m,
  (a, m) ∈ preorder here n ->
  exists rel, a = (here ++ rel)%list /\ nodeAt n rel = Some m.
Proof.
  induction n as [cs IH|t p cs IH|v|v|] using Node_ind'; intros here a m;
    rewrite preorder_unfold, elem_of_cons; simpl childrenOf;
    (intros [H|H]; [inversion H; subst; exists []; now rewrite app_nil_r|]);
    try (now inversion H).
  all: apply elem_of_flatMapIndexed in H as (j & c & Hj & H).
  all: rewrite Forall_lookup in IH.
  all: destruct (IH j c Hj _ _ _ H) as (rel & -> & Hrel).
  all: exists (j :: rel); split; [now rewrite <- app_assoc|].
  all: simpl; now rewrite Hj.
Qed.

Lemma preorder_extends n here a m :
  (a, m) ∈ preorder here n -> exists rel, a = (here ++ rel)%list.
Proof. intros H. apply preorder_lookup in H as (rel & -> & _). eauto. Qed.

Lemma NoDup_children here : forall cs i,
  Forall (fun c => forall h, NoDup (preorder h c).*1) cs ->
  NoDup (flatMapIndexed (fun i c => preorder (here ++ [i])%list c) i cs).*1.
Proof.
  induction cs as [|c cs IH]; intros i Hcs; simpl; [constructor|].
  apply Forall_cons in Hcs as [Hc Hcs].
  rewrite fmap_app. apply NoDup_app. split; [apply Hc|]. split; [|now apply IH].
  intros a Ha Hrest.
  apply list_elem_of_fmap in Ha as ([a1 m1] & -> & H1).
  apply list_elem_of_fmap in Hrest as ([a2 m2] & Heq & H2). simpl in Heq. subst a2.
  apply preorder_extends in H1 as (rel1 & ->).
  apply elem_of_flatMapIndexed in H2 as (j & c' & _ & H2).
  apply preorder_extends in H2 as (rel2 & H2).
  rewrite <- !app_assoc in H2. apply app_inv_head in H2.
  simpl in H2. inversion H2. lia.
Qed.

(** No address is reached twice. *)
Lemma preorder_NoDup n : forall here, NoDup (preorder here n).*1.
Proof.
  induction n as [cs IH|t p cs IH|v|v|] using Node_ind'; intros here;
    rewrite preorder_unfold; simpl childrenOf; rewrite fmap_cons;
    apply NoDup_cons; (split; [|try apply NoDup_children; try constructor; auto]).
  all: simpl; intros H; try (now inversion H).
  all: apply list_elem_of_fmap in H as ([a m] & Heq & H); simpl in Heq; subst a.
  all: apply elem_of_flatMapIndexed in H as (j & c & _ & H).
  all: apply preorder_extends in H as (rel & H).
  all: rewrite <- app_assoc in H.
  all: apply (f_equal length) in H; rewrite length_app in H; simpl in H; lia.
Qed.

Lemma childrenOf_withChildren n cs i c :
  childrenOf n !! i = Some c -> childrenOf (withChildren n cs) = cs.
Proof. destruct n; simpl; try reflexivity; intros H; now rewrite lookup_nil in H. Qed.

Lemma srcOf_withChildren n cs : srcOf (withChildren n cs) = srcOf n.
Proof. now destruct n. Qed.

Lemma childrenOf_setSrc v n : childrenOf (setSrc v n) = childrenOf n.
Proof. now destruct n. Qed.

(** Writing [src] through one address leaves the [src] at every other
    address as it was. *)
Lemma srcAt_updateAt_other v : forall a tree b,
  a <> b -> srcAt (updateAt (setSrc v) tree a) b = srcAt tree b.
Proof.
  unfold srcAt.
  induction a as [|i a IH]; intros tree b Hne.
  - destruct b as [|j b]; [contradiction|]. simpl. now rewrite childrenOf_setSrc.
  - simpl. destruct (childrenOf tree !! i) as [c|] eqn:Ec; [|reflexivity].
    destruct b as [|j b]; simpl.
    + apply srcOf_withChildren.
    + rewrite (childrenOf_withChildren _ _ _ _ Ec).
      destruct (decide (i = j)) as [->|Hij].
      * rewrite list_lookup_insert_eq by (now apply lookup_lt_Some in Ec).
        rewrite Ec. simpl. apply IH. congruence.
      * now rewrite list_lookup_insert_ne.
Qed.

Lemma srcAt_updateAt_same v : forall a tree r,
  srcAt tree a = Some r -> srcAt (updateAt (setSrc v) tree a) a = Some v.
Proof.
  unfold srcAt.
  induction a as [|i a IH]; intros tree r; simpl.
  - destruct tree; simpl; try discriminate. intros _. now rewrite lookup_insert_eq.
  - destruct (childrenOf tree !! i) as [c|] eqn:Ec; simpl; [|discriminate].
    intros H. rewrite (childrenOf_withChildren _ _ _ _ Ec).
    rewrite list_lookup_insert_eq by (now apply lookup_lt_Some in Ec).
    simpl. now apply (IH c r).
Qed.

(** ** Maps in insertion order *)

Lemma JsMap_get_set m k v k' :
  JsMap.get (JsMap.set m k v) k' = if String.eqb k k' then Some v else JsMap.get m k'.
Proof.
  induction m as [|[k0 v0] m IH]; simpl.
  - reflexivity.
  - destruct (String.eqb_spec k0 k) as [->|Hk0]; simpl.
    + destruct (String.eqb k k'); reflexivity.
    + rewrite IH. destruct (String.eqb_spec k0 k') as [->|Hk'].
      * destruct (String.eqb_spec k k'); [congruence | reflexivity].
      * reflexivity.
Qed.

Lemma JsMap_get_None m k : JsMap.get m k = None <-> k ∉ JsMap.keys m.
Proof.
  unfold JsMap.keys. induction m as [|[k0 v0] m IH]; simpl.
  - split; [intros _ H; inversion H | reflexivity].
  - rewrite not_elem_of_cons. destruct (String.eqb_spec k0 k) as [->|Hne].
    + split; [discriminate | intros [H _]; contradiction].
    + rewrite IH. intuition congruence.
Qed.

Lemma JsMap_has_keys m k : JsMap.has m k = true <-> k ∈ JsMap.keys m.
Proof.
  unfold JsMap.has. pose proof (JsMap_get_None m k) as H.
  destruct (JsMap.get m k).
  - split; [intros _ | reflexivity].
    destruct (decide (k ∈ JsMap.keys m)) as [|Hn]; [assumption|].
    apply H in Hn. discriminate.
  - split; [discriminate|]. intros Hin. now apply H in Hin.
Qed.

Lemma JsMap_get_elem m k v : JsMap.get m k = Some v -> (k, v) ∈ m.
Proof.
  induction m as [|[k0 v0] m IH]; simpl; [discriminate|].
  destruct (String.eqb_spec k0 k) as [->|Hne].
  - intros H; inversion H; subst. apply elem_of_cons; auto.
  - intros H. apply elem_of_cons; auto.
Qed.

Lemma JsMap_elem_get m k v :
  NoDup (JsMap.keys m) -> (k, v) ∈ m -> JsMap.get m k = Some v.
Proof.
  unfold JsMap.keys.
  induction m as [|[k0 v0] m IH]; simpl; intros Hnd Hin; [inversion Hin|].
  apply NoDup_cons in Hnd as [Hk0 Hnd].
  apply elem_of_cons in Hin as [Heq|Hin].
  - inversion Heq; subst. now rewrite String.eqb_refl.
  - destruct (String.eqb_spec k0 k) as [->|Hne]; [|auto].
    exfalso. apply Hk0. apply list_elem_of_fmap. now exists (k, v).
Qed.

Lemma JsMap_set_fresh m k v :
  JsMap.get m k = None -> JsMap.set m k v = (m ++ [(k, v)])%list.
Proof.
  induction m as [|[k0 v0] m IH]; simpl; [reflexivity|].
  destruct (String.eqb k0 k); [discriminate|]. intros H. now rewrite IH.
Qed.

(** ** The visitor *)

Section Collect.

Variables (w : World) (options : Options) (filePath : string) (paths : gset string).

Lemma omap_acceptedAddress_snoc l a n :
  omap (acceptedAddress w options filePath paths) (l ++ [(a, n)]) =
  (omap (acceptedAddress w options filePath paths) l
     ++ match accepted w options filePath paths n with Some _ => [a] | None => [] end)%list.
Proof.
  rewrite omap_app. simpl. unfold acceptedAddress at 2. simpl.
  now destruct (accepted w options filePath paths n).
Qed.

Lemma elem_of_snoc {A} (l : list A) (x y : A) : x ∈ (l ++ [y])%list <-> x ∈ l \/ x = y.
Proof. now rewrite elem_of_app, list_elem_of_singleton. Qed.

Lemma visitor_inv l st x :
  collect_inv w options filePath paths l st -> collect_inv w options filePath paths (l ++ [x]) (visitor w options filePath paths st x).
Proof.
  intros [Hn Hv Hk Hd]. destruct x as [a n].
  assert (forall k v, JsMap.get (imagesToResolve st) k = Some v ->
            v = resolveAbsolutePath w options filePath k /\ existsSync w v = true
            /\ exists a0 n0, (a0, n0) ∈ (l ++ [(a, n)])%list
                             /\ eligibleSrc paths n0 = Some k) as Hv'.
  { intros k v Hg. destruct (Hv k v Hg) as (? & ? & a0 & n0 & Hin & He).
    repeat split; auto. exists a0, n0. rewrite elem_of_snoc. auto. }
  unfold visitor.
  destruct (eligibleSrc paths n) as [src|] eqn:Esrc.
  - destruct (JsMap.has (imagesToResolve st) src) eqn:Ehas.
    + assert (existsSync w (resolveAbsolutePath w options filePath src) = true) as Hex.
      { unfold JsMap.has in Ehas.
        destruct (JsMap.get (imagesToResolve st) src) as [v|] eqn:Eg; [|discriminate].
        destruct (Hv _ _ Eg) as (-> & Hex & _). exact Hex. }
      assert (accepted w options filePath paths n = Some src) as Hacc by (unfold accepted; now rewrite Esrc, Hex).
      split; simpl.
      * now rewrite omap_acceptedAddress_snoc, Hacc, Hn.
      * exact Hv'.
      * intros a0 n0 r Hin Hr. apply elem_of_snoc in Hin as [Hin|Hin]; [eauto|].
        inversion Hin; subst. congruence.
      * exact Hd.
    + assert (JsMap.get (imagesToResolve st) src = None) as Hnone.
      { unfold JsMap.has in Ehas. now destruct (JsMap.get (imagesToResolve st) src). }
      destruct (existsSync w (resolveAbsolutePath w options filePath src)) eqn:Hex;
        simpl.
      * assert (accepted w options filePath paths n = Some src) as Hacc by (unfold accepted; now rewrite Esrc, Hex).
        split; simpl.
        -- now rewrite omap_acceptedAddress_snoc, Hacc, Hn.
        -- intros k v. rewrite JsMap_get_set.
           destruct (String.eqb_spec src k) as [->|Hne]; [|apply Hv'].
           intros H; inversion H; subst. repeat split; auto.
           exists a, n. rewrite elem_of_snoc. auto.
        -- intros a0 n0 r Hin Hr. unfold JsMap.has. rewrite JsMap_get_set.
           destruct (String.eqb_spec src r) as [|Hne]; [reflexivity|].
           apply elem_of_snoc in Hin as [Hin|Hin]; [exact (Hk _ _ _ Hin Hr)|].
           inversion Hin; subst. congruence.
        -- rewrite JsMap_set_fresh by assumption. unfold JsMap.keys in *.
           rewrite fmap_app. apply NoDup_app. repeat split; auto.
           ++ intros k Hin Hk'. apply list_elem_of_singleton in Hk'. simpl in Hk'. subst k.
              now apply JsMap_get_None in Hnone.
           ++ apply NoDup_singleton.
      * assert (accepted w options filePath paths n = None) as Hacc by (unfold accepted; now rewrite Esrc, Hex).
        split; simpl.
        -- now rewrite omap_acceptedAddress_snoc, Hacc, Hn, app_nil_r.
        -- exact Hv'.
        -- intros a0 n0 r Hin Hr. apply elem_of_snoc in Hin as [Hin|Hin]; [eauto|].
           inversion Hin; subst. congruence.
        -- exact Hd.
  - assert (accepted w options filePath paths n = None) as Hacc by (unfold accepted; now rewrite Esrc).
    split; simpl.
    + now rewrite omap_acceptedAddress_snoc, Hacc, Hn, app_nil_r.
    + exact Hv'.
    + intros a0 n0 r Hin Hr. apply elem_of_snoc in Hin as [Hin|Hin]; [eauto|].
      inversion Hin; subst. congruence.
    + exact Hd.
Qed.

Lemma fold_visitor_inv l :
  collect_inv w options filePath paths l (fold_left (visitor w options filePath paths) l
                   {| imageNodes := []; imagesToResolve := [] |}).
Proof.
  induction l as [|x l IH] using rev_ind.
  - split; simpl; try reflexivity; try discriminate.
    + intros a n r H. inversion H.
    + constructor.
  - rewrite fold_left_app. simpl. now apply visitor_inv.
Qed.

Lemma collect_spec tree :
  collect_inv w options filePath paths (preorder [] tree) (collect w options filePath paths tree).
Proof. apply fold_visitor_inv. Qed.

End Collect.

(** ** Pipelines and the result map *)

Lemma runPipeline_relativePath w options entry :
  relativePath (runPipeline w options entry) = entry.1.
Proof.
  destruct entry as [k v]. unfold runPipeline.
  destruct (imageMetadata w v) as [[meta|]|]; try reflexivity.
  destruct (getImageAssetFileName w v (viteConfig options)); reflexivity.
Qed.

Lemma runPipeline_absolutePath w options entry :
  absolutePath (runPipeline w options entry) = entry.2.
Proof.
  destruct entry as [k v]. unfold runPipeline.
  destruct (imageMetadata w v) as [[meta|]|]; try reflexivity.
  destruct (getImageAssetFileName w v (viteConfig options)); reflexivity.
Qed.

(** A fulfilled promise carries the reference it was created for. *)
Lemma runPipeline_outcome_key w options entry k v :
  outcome (runPipeline w options entry) = Ok (k, v) -> k = entry.1.
Proof.
  destruct entry as [k0 v0]. unfold runPipeline.
  destruct (imageMetadata w v0) as [[meta|]|]; try discriminate.
  destruct (getImageAssetFileName w v0 (viteConfig options)); try discriminate.
  simpl. destruct (getImage w meta a); simpl; [|discriminate].
  now intros H; inversion H.
Qed.

Lemma relativePaths_of_runs w options (m : JsMap.t) :
  relativePath <$> (runPipeline w options <$> m) = JsMap.keys m.
Proof.
  unfold JsMap.keys. rewrite <- list_fmap_compose. apply list_fmap_ext.
  intros i entry _. apply runPipeline_relativePath.
Qed.

Lemma processResult_other runs : forall m k,
  (forall run v, run ∈ runs -> outcome run <> Ok (k, v)) ->
  JsMap.get (fold_left processResult runs m) k = JsMap.get m k.
Proof.
  induction runs as [|run runs IH]; intros m k Hk; [reflexivity|]. simpl.
  rewrite IH by (intros; apply Hk; now right).
  unfold processResult. destruct (outcome run) as [[k' v']|e] eqn:E; [|reflexivity].
  rewrite JsMap_get_set. destruct (String.eqb_spec k' k) as [->|]; [|reflexivity].
  exfalso. apply (Hk run v'); [now left | assumption].
Qed.


Lemma processResult_rejected runs m :
  (forall run, run ∈ runs -> exists e, outcome run = Throw e) ->
  fold_left processResult runs m = m.
Proof.
  revert m. induction runs as [|run runs IH]; intros m H; [reflexivity|]. simpl.
  destruct (H run) as [e He]; [now left|].
  unfold processResult at 2. rewrite He. apply IH. intros; apply H; now right.
Qed.

Lemma warningsOf_elem runs run e :
  run ∈ runs -> outcome run = Throw e -> e ∈ warningsOf runs.
Proof.
  intros Hin He. unfold warningsOf. apply list_elem_of_omap.
  exists run. now rewrite He.
Qed.

(** ** The rewriting loop *)

Section Rewrite.

Variables (w : World) (options : Options) (resolvedImages : JsMap.t).



End Rewrite.

Lemma rewriteNodes_empty w options nodes : forall tree,
  rewriteNodes w options [] nodes tree = (tree, None).
Proof.
  induction nodes as [|a nodes IH]; intros tree; [reflexivity|]. simpl.
  unfold rewriteNode. destruct (srcAt tree a); simpl; apply IH.
Qed.

(** ** The transformer *)

Lemma NoDup_fmap_eq {A B} (f : A -> B) (l : list A) x y :
  NoDup (f <$> l) -> x ∈ l -> y ∈ l -> f x = f y -> x = y.
Proof.
  induction l as [|z l IH]; intros Hnd Hx Hy Hf; [inversion Hx|].
  rewrite fmap_cons in Hnd. apply NoDup_cons in Hnd as [Hz Hnd].
  apply elem_of_cons in Hx as [->|Hx]; apply elem_of_cons in Hy as [->|Hy]; auto.
  - exfalso. apply Hz. rewrite Hf. apply list_elem_of_fmap. eauto.
  - exfalso. apply Hz. rewrite <- Hf. apply list_elem_of_fmap. eauto.
Qed.

Lemma processResult_inv runs : forall m k v,
  JsMap.get (fold_left processResult runs m) k = Some v ->
  JsMap.get m k = Some v \/ exists run, run ∈ runs /\ outcome run = Ok (k, v).
Proof.
  induction runs as [|run runs IH]; intros m k v H; [now left|]. simpl in H.
  apply IH in H as [H|(run' & Hin & Hout)].
  - unfold processResult in H. destruct (outcome run) as [[k' v']|e] eqn:E; [|now left].
    rewrite JsMap_get_set in H. destruct (String.eqb_spec k' k) as [->|]; [|now left].
    inversion H; subst. right. exists run. split; [now left | assumption].
  - right. exists run'. split; [now right | assumption].
Qed.

Lemma eligibleSrc_srcOf paths n r : eligibleSrc paths n = Some r -> srcOf n = Some r.
Proof.
  unfold eligibleSrc. destruct n; try discriminate.
  destruct (String.eqb tagName "img"); [|discriminate].
  destruct (srcOf _) as [src|]; [|discriminate].
  destruct (_ && _); [|discriminate]. now intros H; inversion H.
Qed.

Lemma elem_of_acceptedAddress w options filePath paths
    (l : list (Address * Node)) (a : Address) :
  a ∈ omap (acceptedAddress w options filePath paths) l <->
  exists n r, (a, n) ∈ l /\ accepted w options filePath paths n = Some r.
Proof.
  rewrite list_elem_of_omap. unfold acceptedAddress. split.
  - intros ([a' n] & Hin & H). simpl in H.
    destruct (accepted w options filePath paths n) as [r|] eqn:E; [|discriminate].
    inversion H; subst. eauto.
  - intros (n & r & Hin & H). exists (a, n). simpl. now rewrite H.
Qed.

Lemma NoDup_acceptedAddress w options filePath paths (l : list (Address * Node)) :
  NoDup l.*1 -> NoDup (omap (acceptedAddress w options filePath paths) l).
Proof.
  induction l as [|[a n] l IH]; simpl; [constructor|]. intros Hnd.
  apply NoDup_cons in Hnd as [Ha Hnd]. unfold acceptedAddress at 1. simpl.
  destruct (accepted w options filePath paths n); [|auto].
  apply NoDup_cons. split; [|auto].
  intros Hin. apply elem_of_acceptedAddress in Hin as (n' & r & Hin & _).
  apply Ha. apply list_elem_of_fmap. now exists (a, n').
Qed.

Section Pass.

Variables (w : World) (options : Options) (tree : Node) (file : VFile).
Variables (filePath : string) (paths : gset string).
Hypothesis guard : candidates file = Some (filePath, paths).

#[local] Abbreviation st := (collect w options filePath paths tree).
#[local] Abbreviation pass := (rehypeAstroImages w options tree file).

Lemma pass_runs : runs pass = runPipeline w options <$> imagesToResolve st.
Proof. unfold rehypeAstroImages. now rewrite guard. Qed.

Lemma pass_resolved : resolved pass = fold_left processResult (runs pass) [].
Proof. unfold rehypeAstroImages. now rewrite guard. Qed.

Lemma pass_rewritten :
  (treeAfter pass, thrown pass)
  = rewriteNodes w options (resolved pass) (imageNodes st) tree.
Proof.
  unfold rehypeAstroImages. rewrite guard. simpl.
  now destruct (rewriteNodes _ _ _ _ _).
Qed.

Lemma pass_warnings : warnings pass = warningsOf (runs pass).
Proof. unfold rehypeAstroImages. now rewrite guard. Qed.

Lemma runs_NoDup : NoDup (relativePath <$> runs pass).
Proof.
  rewrite pass_runs, relativePaths_of_runs.
  apply (inv_NoDup _ _ _ _ _ _ (collect_spec w options filePath paths tree)).
Qed.

Lemma runs_key run k v : run ∈ runs pass -> outcome run = Ok (k, v) -> k = relativePath run.
Proof.
  rewrite pass_runs. intros Hin Hout.
  apply list_elem_of_fmap in Hin as (entry & -> & _).
  rewrite runPipeline_relativePath. eapply runPipeline_outcome_key; eauto.
Qed.

Lemma runs_entry run :
  run ∈ runs pass ->
  JsMap.get (imagesToResolve st) (relativePath run) = Some (absolutePath run).
Proof.
  rewrite pass_runs. intros Hin.
  apply list_elem_of_fmap in Hin as ([k v] & -> & Hin).
  rewrite runPipeline_relativePath, runPipeline_absolutePath. simpl.
  apply JsMap_elem_get; [|assumption].
  apply (inv_NoDup _ _ _ _ _ _ (collect_spec w options filePath paths tree)).
Qed.

Lemma runs_of_reference r :
  JsMap.has (imagesToResolve st) r = true ->
  exists run, run ∈ runs pass /\ relativePath run = r.
Proof.
  intros H. apply JsMap_has_keys in H. rewrite <- (relativePaths_of_runs w options) in H.
  rewrite <- pass_runs in H. apply list_elem_of_fmap in H as (run & -> & Hin). eauto.
Qed.

(** A node the visitor keeps is in [imageNodes] and still carries its
    reference when the loop starts. *)
Lemma visited_image a n r :
  (a, n) ∈ preorder [] tree -> accepted w options filePath paths n = Some r ->
  a ∈ imageNodes st /\ srcAt tree a = Some r.
Proof.
  intros Hin Hacc. split.
  - rewrite (inv_nodes _ _ _ _ _ _ (collect_spec w options filePath paths tree)).
    apply elem_of_acceptedAddress. eauto.
  - apply preorder_lookup in Hin as (rel & -> & Hrel). simpl. unfold srcAt.
    rewrite Hrel. simpl. unfold accepted in Hacc.
    destruct (eligibleSrc paths n) as [src|] eqn:E; [|discriminate].
    destruct (existsSync w _); [|discriminate]. inversion Hacc; subst.
    eapply eligibleSrc_srcOf; eauto.
Qed.


End Pass.

(** C1, as the code has it: promises are created per reference string.
    Every reference carried by a visited image node whose file exists gets
    exactly one promise, for the absolute path it resolves to; no reference
    gets two. *)
Theorem pipeline_once_per_reference (w : World) (options : Options)
    (tree : Node) (file : VFile) (filePath : string) (paths : gset string) :
  candidates file = Some (filePath, paths) ->
  let pass := rehypeAstroImages w options tree file in
  NoDup (relativePath <$> runs pass)
  /\ (forall run, run ∈ runs pass ->
        absolutePath run = resolveAbsolutePath w options filePath (relativePath run)
        /\ existsSync w (absolutePath run) = true)
  /\ (forall r, r ∈ (relativePath <$> runs pass) <->
        exists a n, (a, n) ∈ preorder [] tree /\ eligibleSrc paths n = Some r
          /\ existsSync w (resolveAbsolutePath w options filePath r) = true).
Proof.
  intros guard pass. subst pass.
  pose proof (collect_spec w options filePath paths tree) as [_ Hvalues Hkeys _].
  split; [now apply (runs_NoDup w options tree file filePath paths)|]. split.
  - intros run Hrun.
    apply (runs_entry w options tree file filePath paths guard) in Hrun.
    destruct (Hvalues _ _ Hrun) as (? & ? & _). auto.
  - intros r. rewrite (pass_runs w options tree file filePath paths guard).
    rewrite relativePaths_of_runs, <- JsMap_has_keys. split.
    + intros Hhas. unfold JsMap.has in Hhas.
      destruct (JsMap.get _ r) as [v|] eqn:E; [|discriminate].
      destruct (Hvalues _ _ E) as (-> & Hex & a & n & Hin & He). eauto.
    + intros (a & n & Hin & He & Hex). apply (Hkeys a n r Hin).
      unfold accepted. now rewrite He, Hex.
Qed.

(** The sample document satisfies the guard; its promises are for distinct
    references. *)
Lemma pipeline_once_per_reference_witness :
  NoDup (relativePath <$>
           runs (rehypeAstroImages Sample.world Sample.options Sample.document
                   Sample.file)).
Proof.
  apply (pipeline_once_per_reference Sample.world Sample.options Sample.document
           Sample.file "/proj/src/pages/post.md" Sample.references).
  reflexivity.
Defined.

(** C1 as stated fails: [./a.png] and [a.png] are the same file, and each
    gets a promise of its own. *)
Lemma dedup_by_path_counterexample :
  let pass := rehypeAstroImages Sample.world Sample.options Sample.document
                Sample.file in
  (relativePath <$> runs pass) = ["./a.png"; "a.png"; "~/assets/logo.png"; "b.png"]
  /\ (absolutePath <$> runs pass)
     = ["/proj/src/pages/a.png"; "/proj/src/pages/a.png";
        "/proj/src/assets/logo.png"; "/proj/src/pages/b.png"].
Proof. vm_compute. split; reflexivity. Qed.

(** C2 on the code: a resolved path that starts with a separator gets a
    second one in front, as for the logo of the sample project. *)
Theorem absolutize_doubles_leading_slash :
  (forall rest, absolutize (String "/" rest) = String "/" (String "/" rest))
  /\ let pass := rehypeAstroImages Sample.world Sample.options Sample.document
                   Sample.file in
     JsMap.get (resolved pass) "~/assets/logo.png" = Some "/assets/logo-a2232ab4.png"
     /\ srcAt (treeAfter pass) [1] = Some "//assets/logo-a2232ab4.png".
Proof.
  split; [now intros [|c rest]|]. vm_compute. split; reflexivity.
Qed.

Lemma getImageAssetFileName_array w absolutePath viteConfig os :
  rollupOutput viteConfig = Some (OutputArray os) ->
  getImageAssetFileName w absolutePath viteConfig =
  match readFileSync w absolutePath with
  | Some _ => Throw MultipleOutputsError
  | None => Throw (FsError absolutePath)
  end.
Proof.
  intros H. unfold getImageAssetFileName, getImageSource. rewrite H.
  now destruct (readFileSync w absolutePath).
Qed.

Lemma runPipeline_array w options os entry :
  rollupOutput (viteConfig options) = Some (OutputArray os) ->
  optimizerCall (runPipeline w options entry) = None
  /\ exists e, outcome (runPipeline w options entry) = Throw e.
Proof.
  intros H. destruct entry as [k v]. unfold runPipeline.
  destruct (imageMetadata w v) as [[meta|]|e]; simpl; eauto.
  rewrite (getImageAssetFileName_array _ _ _ os H).
  destruct (readFileSync w v); simpl; eauto.
Qed.

Lemma warningsOf_rejected runs :
  (forall run, run ∈ runs -> exists e, outcome run = Throw e) ->
  length (warningsOf runs) = length runs.
Proof.
  unfold warningsOf. induction runs as [|run runs IH]; intros H; [reflexivity|].
  destruct (H run) as [e He]; [now left|]. simpl. rewrite He. simpl.
  f_equal. apply IH. intros; apply H; now right.
Qed.

(** C7, as the code has it: with an array-valued output,
    [getImageAssetFileName] throws for every image before a file name is
    generated; the exception rejects the promise of that image, so the pass
    itself completes, with one warning per image, no call of the optimizer
    and every reference left as it was. *)
Theorem multiple_outputs_reject_each_image (w : World) (options : Options)
    (os : list OutputOptions) :
  rollupOutput (viteConfig options) = Some (OutputArray os) ->
  (forall absolutePath data, readFileSync w absolutePath = Some data ->
     getImageAssetFileName w absolutePath (viteConfig options)
     = Throw MultipleOutputsError)
  /\ forall tree file,
       let pass := rehypeAstroImages w options tree file in
       thrown pass = None /\ treeAfter pass = tree /\ resolved pass = []
       /\ length (warnings pass) = length (runs pass)
       /\ forall run, run ∈ runs pass ->
            optimizerCall run = None /\ exists e, outcome run = Throw e.
Proof.
  intros Harray. split.
  - intros absolutePath data Hread.
    now rewrite (getImageAssetFileName_array _ _ _ os Harray), Hread.
  - intros tree file pass. subst pass. unfold rehypeAstroImages.
    destruct (candidates file) as [[filePath paths]|]; simpl.
    + assert (forall run,
                run ∈ runPipeline w options
                        <$> imagesToResolve (collect w options filePath paths tree) ->
                optimizerCall run = None /\ exists e, outcome run = Throw e) as Hruns.
      { intros run Hrun. apply list_elem_of_fmap in Hrun as (entry & -> & _).
        now apply (runPipeline_array w options os). }
      rewrite processResult_rejected by (intros run Hrun; now apply Hruns).
      rewrite rewriteNodes_empty. simpl.
      do 3 (split; [reflexivity|]). split; [|exact Hruns].
      apply warningsOf_rejected. intros run Hrun. now apply Hruns.
    + do 4 (split; [reflexivity|]). intros run Hrun. inversion Hrun.
Qed.

(** An array with a single entry is rejected like any other. *)
Lemma multiple_outputs_reject_each_image_witness :
  getImageAssetFileName Sample.world "/proj/src/pages/a.png"
    (viteConfig (Sample.withOutput (OutputArray [{| assetFileNames := None |}])))
  = Throw MultipleOutputsError.
Proof.
  apply (proj1 (multiple_outputs_reject_each_image Sample.world
                  (Sample.withOutput (OutputArray [{| assetFileNames := None |}]))
                  [{| assetFileNames := None |}] eq_refl)
           "/proj/src/pages/a.png" (list_byte_of_string "AAAA")).
  reflexivity.
Defined.

(** C7 as stated fails: the pass over the sample document completes; the
    errors are logged as warnings. *)
Lemma multiple_outputs_counterexample :
  let options :=
    Sample.withOutput
      (OutputArray [ {| assetFileNames := None |};
                     {| assetFileNames := Some (PatternString "img/[name][extname]") |} ]) in
  let pass := rehypeAstroImages Sample.world options Sample.document Sample.file in
  thrown pass = None
  /\ treeAfter pass = Sample.document
  /\ warnings pass = [ MultipleOutputsError; MultipleOutputsError;
                       MultipleOutputsError; ServiceError "corrupt header" ].
Proof. vm_compute. repeat split. Qed.

(** C9: without candidates (no set attached, or an empty one) the
    transformer returns at once: same tree, no exception, no promise, no
    warning. *)
Theorem empty_candidate_set_is_identity (w : World) (options : Options)
    (tree : Node) (filePath : option string) :
  rehypeAstroImages w options tree {| path := filePath; imagePaths := Undefined |}
  = unchanged tree
  /\ rehypeAstroImages w options tree {| path := filePath; imagePaths := SetOf ∅ |}
  = unchanged tree.
Proof.
  unfold rehypeAstroImages, candidates. simpl.
  destruct filePath as [p|]; [destruct (Js.truthy p)|]; split; reflexivity.
Qed.

(** C10: without a path, with an empty path, or with candidates that are
    not a [Set], the transformer returns at once with the tree as it was;
    nothing is iterated and nothing is reported. *)
Theorem wrong_typed_input_is_noop (w : World) (options : Options)
    (tree : Node) (file : VFile) :
  path file = None \/ path file = Some "" \/ (forall s, imagePaths file <> SetOf s) ->
  rehypeAstroImages w options tree file = unchanged tree.
Proof.
  intros H. unfold rehypeAstroImages, candidates.
  destruct H as [-> | [-> | H]]; try reflexivity.
  destruct (path file) as [p|]; [|reflexivity].
  destruct (Js.truthy p); [|reflexivity].
  destruct (imagePaths file) as [|s| |] eqn:E; try reflexivity.
  now destruct (H s).
Qed.

(** An array of valid references is not looked at. *)
Lemma wrong_typed_input_is_noop_witness :
  rehypeAstroImages Sample.world Sample.options Sample.document
    {| path := Some "/proj/src/pages/post.md";
       imagePaths := ArrayOf ["./a.png"; "a.png"] |}
  = unchanged Sample.document.
Proof.
  apply wrong_typed_input_is_noop. right. right. intros s. discriminate.
Defined.

(** * Further properties of the code *)

(** ** The rewriting loop, whatever it meets *)

Lemma rewriteNode_cases w options resolvedImages tree a :
  rewriteNode w options resolvedImages tree a = Ok tree
  \/ (exists r v href,
        srcAt tree a = Some r /\ JsMap.get resolvedImages r = Some v
        /\ Js.truthy v = true /\ finalSrc w options v = Ok href
        /\ rewriteNode w options resolvedImages tree a
           = Ok (updateAt (setSrc href) tree a))
  \/ (exists v base,
        rootUrl options = Some base /\ Js.truthy base = true
        /\ newURL w v base = None
        /\ rewriteNode w options resolvedImages tree a = Throw (InvalidUrl v base)).
Proof.
  unfold rewriteNode.
  destruct (srcAt tree a) as [r|]; [|now left].
  destruct (JsMap.get resolvedImages r) as [v|] eqn:Eg; [|now left].
  destruct (Js.truthy v) eqn:Et; [|now left].
  destruct (finalSrc w options v) as [href|e] eqn:Ef; simpl.
  - right. left. exists r, v, href. auto.
  - right. right. unfold finalSrc in Ef.
    destruct (rootUrl options) as [base|]; [|discriminate].
    destruct (Js.truthy base) eqn:Eb; [|discriminate].
    destruct (newURL w v base) eqn:Eu; [discriminate|].
    inversion Ef; subst. exists v, base. auto.
Qed.

Lemma eraseSrc_setSrc v n : eraseSrc (setSrc v n) = eraseSrc n.
Proof. destruct n; simpl; try reflexivity. now rewrite delete_insert_eq. Qed.

Lemma eraseSrc_withChildren n cs i c :
  childrenOf n !! i = Some c ->
  eraseSrc (withChildren n cs) = withChildren (eraseSrc n) (map eraseSrc cs).
Proof. destruct n; simpl; try reflexivity; intros H; now rewrite lookup_nil in H. Qed.

Lemma withChildren_eraseSrc n : withChildren (eraseSrc n) (map eraseSrc (childrenOf n)) = eraseSrc n.
Proof. now destruct n. Qed.

(** Writing a [src] changes nothing else. *)
Lemma eraseSrc_updateAt v : forall a tree,
  eraseSrc (updateAt (setSrc v) tree a) = eraseSrc tree.
Proof.
  induction a as [|i a IH]; intros tree; simpl.
  - apply eraseSrc_setSrc.
  - destruct (childrenOf tree !! i) as [c|] eqn:Ec; [|reflexivity].
    rewrite (eraseSrc_withChildren _ _ _ _ Ec).
    change (map eraseSrc) with (fmap (M := list) eraseSrc).
    rewrite list_fmap_insert, IH.
    rewrite list_insert_id by (now rewrite list_lookup_fmap, Ec).
    apply withChildren_eraseSrc.
Qed.

Lemma eraseSrc_rewriteNodes w options resolvedImages nodes : forall tree,
  eraseSrc (rewriteNodes w options resolvedImages nodes tree).1 = eraseSrc tree.
Proof.
  induction nodes as [|a nodes IH]; intros tree; [reflexivity|]. simpl.
  destruct (rewriteNode_cases w options resolvedImages tree a)
    as [H|[(r & v & href & _ & _ & _ & _ & H)|(v & base & _ & _ & _ & H)]];
    rewrite H; [apply IH | | reflexivity].
  now rewrite IH, eraseSrc_updateAt.
Qed.

(** The only exception the loop can raise is that of the [URL]
    constructor. *)
Lemma rewriteNodes_thrown w options resolvedImages nodes : forall tree e,
  (rewriteNodes w options resolvedImages nodes tree).2 = Some e ->
  exists v base, e = InvalidUrl v base /\ rootUrl options = Some base
                 /\ Js.truthy base = true /\ newURL w v base = None.
Proof.
  induction nodes as [|a nodes IH]; intros tree e; [discriminate|]. simpl.
  destruct (rewriteNode_cases w options resolvedImages tree a)
    as [H|[(r & v & href & _ & _ & _ & _ & H)|(v & base & Hb & Ht & Hu & H)]];
    rewrite H; [apply IH | apply IH |].
  simpl. intros He; inversion He; subst. exists v, base. auto.
Qed.

(** Where the loop leaves a [src] different from what it found, it wrote
    the final form of a non-empty result of the map. *)
Lemma rewriteNodes_changes w options resolvedImages nodes : forall tree b,
  NoDup nodes ->
  srcAt (rewriteNodes w options resolvedImages nodes tree).1 b = srcAt tree b
  \/ (b ∈ nodes /\ exists r v href,
        srcAt tree b = Some r /\ JsMap.get resolvedImages r = Some v
        /\ Js.truthy v = true /\ finalSrc w options v = Ok href
        /\ srcAt (rewriteNodes w options resolvedImages nodes tree).1 b = Some href).
Proof.
  induction nodes as [|a nodes IH]; intros tree b Hnd; [now left|].
  apply NoDup_cons in Hnd as [Hfresh Hnd]. simpl.
  destruct (rewriteNode_cases w options resolvedImages tree a)
    as [H|[(r & v & href & Hr & Hg & Ht & Hf & H)|(v & base & _ & _ & _ & H)]];
    rewrite H.
  - destruct (IH tree b Hnd) as [Hsame|(Hin & Hrest)]; [now left|].
    right. split; [now right | exact Hrest].
  - destruct (IH (updateAt (setSrc href) tree a) b Hnd)
      as [Hsame|(Hin & r' & v' & href' & Hr' & Hrest)].
    + destruct (decide (a = b)) as [->|Hne].
      * right. split; [now left|]. exists r, v, href.
        rewrite Hsame. erewrite srcAt_updateAt_same by eauto. auto.
      * left. rewrite Hsame. now apply srcAt_updateAt_other.
    + right. split; [now right|]. exists r', v', href'.
      rewrite srcAt_updateAt_other in Hr' by (intros ->; contradiction). auto.
  - now left.
Qed.

(** ** What a pass can and cannot do *)

Lemma pass_tree w options tree file filePath paths :
  candidates file = Some (filePath, paths) ->
  let pass := rehypeAstroImages w options tree file in
  treeAfter pass
  = (rewriteNodes w options (resolved pass)
       (imageNodes (collect w options filePath paths tree)) tree).1
  /\ thrown pass
  = (rewriteNodes w options (resolved pass)
       (imageNodes (collect w options filePath paths tree)) tree).2.
Proof.
  intros guard pass. subst pass.
  pose proof (pass_rewritten w options tree file filePath paths guard) as H.
  destruct (rewriteNodes _ _ _ _ _) as [t e]. now inversion H.
Qed.

Lemma imageNodes_NoDup w options filePath paths tree :
  NoDup (imageNodes (collect w options filePath paths tree)).
Proof.
  rewrite (inv_nodes _ _ _ _ _ _ (collect_spec w options filePath paths tree)).
  apply NoDup_acceptedAddress, preorder_NoDup.
Qed.

(** X1: the transformer can fail in one way only: the [URL] constructor
    refuses the base URL or a resolved path.  Rejected promises, missing
    files and naming errors never make it throw. *)
Theorem pass_fails_only_on_url (w : World) (options : Options) (tree : Node)
    (file : VFile) (e : JsError) :
  thrown (rehypeAstroImages w options tree file) = Some e ->
  exists v base,
    e = InvalidUrl v base /\ rootUrl options = Some base
    /\ Js.truthy base = true /\ newURL w v base = None.
Proof.
  unfold rehypeAstroImages at 1.
  destruct (candidates file) as [[filePath paths]|] eqn:guard; [|discriminate].
  simpl. apply rewriteNodes_thrown.
Qed.

(** With a base URL that the sample [URL] constructor refuses, the pass
    over the sample document throws at the first image. *)
Lemma pass_fails_only_on_url_witness :
  let options :=
    {| rootPath := "/proj"; rootUrl := Some "not a url"; viteConfig := None |} in
  thrown (rehypeAstroImages Sample.world options Sample.document Sample.file)
  = Some (InvalidUrl "/assets/a-63c1dd95.png" "not a url")
  /\ newURL Sample.world "/assets/a-63c1dd95.png" "not a url" = None.
Proof.
  assert (thrown (rehypeAstroImages Sample.world
                    {| rootPath := "/proj"; rootUrl := Some "not a url";
                       viteConfig := None |}
                    Sample.document Sample.file)
          = Some (InvalidUrl "/assets/a-63c1dd95.png" "not a url")) as Hthrown
    by (vm_compute; reflexivity).
  split; [exact Hthrown|].
  destruct (pass_fails_only_on_url _ _ _ _ _ Hthrown) as (v & base & He & _ & _ & Hu).
  inversion He; subst. exact Hu.
Defined.

(** X2: a pass changes nothing but values of [src]: the tree without its
    [src] properties is the same before and after, also when the pass
    throws. *)
Theorem pass_preserves_structure (w : World) (options : Options) (tree : Node)
    (file : VFile) :
  eraseSrc (treeAfter (rehypeAstroImages w options tree file)) = eraseSrc tree.
Proof.
  destruct (candidates file) as [[filePath paths]|] eqn:guard.
  - destruct (pass_tree w options tree file filePath paths guard) as [-> _].
    apply eraseSrc_rewriteNodes.
  - unfold rehypeAstroImages. now rewrite guard.
Qed.

(** X3: the [src] at an address differs after the pass only if the node
    there is an eligible image whose file exists and whose promise was
    fulfilled with a non-empty path; the new value is the final form of
    that path.  This holds also when the pass throws. *)
Theorem pass_changes_only_resolved_images (w : World) (options : Options)
    (tree : Node) (file : VFile) (a : Address) :
  let pass := rehypeAstroImages w options tree file in
  srcAt (treeAfter pass) a = srcAt tree a
  \/ exists filePath paths n r run v href,
       candidates file = Some (filePath, paths)
       /\ (a, n) ∈ preorder [] tree
       /\ eligibleSrc paths n = Some r
       /\ existsSync w (resolveAbsolutePath w options filePath r) = true
       /\ run ∈ runs pass /\ outcome run = Ok (r, v)
       /\ Js.truthy v = true /\ finalSrc w options v = Ok href
       /\ srcAt (treeAfter pass) a = Some href.
Proof.
  intros pass. subst pass.
  destruct (candidates file) as [[filePath paths]|] eqn:guard;
    [|left; unfold rehypeAstroImages; now rewrite guard].
  destruct (pass_tree w options tree file filePath paths guard) as [-> _].
  destruct (rewriteNodes_changes w options
              (resolved (rehypeAstroImages w options tree file))
              _ tree a (imageNodes_NoDup w options filePath paths tree))
    as [H|(Hin & r & v & href & Hr & Hg & Ht & Hf & H)]; [now left|].
  right.
  rewrite (inv_nodes _ _ _ _ _ _ (collect_spec w options filePath paths tree)) in Hin.
  apply elem_of_acceptedAddress in Hin as (n & r' & Hn & Hacc).
  destruct (visited_image w options tree filePath paths a n r' Hn Hacc) as [_ Hr'].
  rewrite Hr in Hr'. inversion Hr'; subst r'.
  rewrite (pass_resolved w options tree file filePath paths guard) in Hg.
  apply processResult_inv in Hg as [Hg|(run & Hrun & Hout)]; [discriminate|].
  unfold accepted in Hacc.
  destruct (eligibleSrc paths n) as [src|] eqn:Ee; [|discriminate].
  destruct (existsSync w _) eqn:Ex; [|discriminate]. inversion Hacc; subst src.
  exists filePath, paths, n, r, run, v, href. auto 10.
Qed.

(** ** The result map *)

Lemma processResult_fresh runs : forall m,
  NoDup (relativePath <$> runs) ->
  (forall run k v, run ∈ runs -> outcome run = Ok (k, v) -> k = relativePath run) ->
  (forall run, run ∈ runs -> relativePath run ∉ JsMap.keys m) ->
  fold_left processResult runs m = (m ++ omap fulfilledEntry runs)%list.
Proof.
  induction runs as [|run runs IH]; intros m Hnd Hkey Hfresh; simpl;
    [now rewrite app_nil_r|].
  rewrite fmap_cons in Hnd. apply NoDup_cons in Hnd as [Hrun Hnd].
  assert (forall run' k v, run' ∈ runs -> outcome run' = Ok (k, v) ->
            k = relativePath run') as Hkey'
    by (intros; eapply Hkey; eauto; now right).
  unfold processResult at 2, fulfilledEntry at 1.
  destruct (outcome run) as [[k v]|e] eqn:Eout.
  - assert (k = relativePath run) as -> by (eapply Hkey; [now left | eauto]).
    rewrite JsMap_set_fresh by (apply JsMap_get_None, Hfresh; now left).
    rewrite IH; auto.
    + now rewrite <- app_assoc.
    + intros run' Hin. unfold JsMap.keys. rewrite fmap_app, elem_of_app.
      intros [H|H]; [now apply (Hfresh run'); [right|]|].
      apply list_elem_of_singleton in H. simpl in H.
      apply Hrun. rewrite <- H. apply list_elem_of_fmap. eauto.
  - apply IH; auto. intros run' Hin. apply Hfresh. now right.
Qed.

Lemma length_settled runs :
  length runs = length (omap fulfilledEntry runs) + length (warningsOf runs).
Proof.
  unfold warningsOf, fulfilledEntry.
  induction runs as [|run runs IH]; [reflexivity|]. cbn [omap list_omap length].
  destruct (outcome run); cbn [length]; rewrite IH; lia.
Qed.

(** X4: [resolvedImages] lists exactly the results of the fulfilled
    promises, in the order the promises were created, and every promise
    ends either there or in a warning. *)
Theorem every_promise_is_accounted_for (w : World) (options : Options)
    (tree : Node) (file : VFile) :
  let pass := rehypeAstroImages w options tree file in
  resolved pass = omap fulfilledEntry (runs pass)
  /\ length (runs pass) = length (resolved pass) + length (warnings pass).
Proof.
  intros pass. subst pass.
  destruct (candidates file) as [[filePath paths]|] eqn:guard.
  - assert (resolved (rehypeAstroImages w options tree file)
            = omap fulfilledEntry (runs (rehypeAstroImages w options tree file)))
      as Hresolved.
    { rewrite (pass_resolved w options tree file filePath paths guard).
      rewrite processResult_fresh; [reflexivity | | |].
      - apply (runs_NoDup w options tree file filePath paths guard).
      - apply (runs_key w options tree file filePath paths guard).
      - intros run _ H. inversion H. }
    split; [exact Hresolved|]. rewrite Hresolved.
    rewrite (pass_warnings w options tree file filePath paths guard).
    apply length_settled.
  - unfold rehypeAstroImages. rewrite guard. split; reflexivity.
Qed.

(** ** Nodes that carry the same reference *)

Lemma rewriteNode_ok w options resolvedImages tree a tree1 :
  rewriteNode w options resolvedImages tree a = Ok tree1 ->
  (forall b, b <> a -> srcAt tree1 b = srcAt tree b)
  /\ forall r, srcAt tree a = Some r ->
       exists s, written w options resolvedImages r = Ok s /\ srcAt tree1 a = Some s.
Proof.
  intros Hstep. split.
  - intros b Hb.
    destruct (rewriteNode_cases w options resolvedImages tree a)
      as [H|[(r & v & href & _ & _ & _ & _ & H)|(v & base & _ & _ & _ & H)]];
      rewrite H in Hstep; inversion Hstep; subst; [reflexivity|].
    apply srcAt_updateAt_other. congruence.
  - intros r Hr. unfold rewriteNode in Hstep. rewrite Hr in Hstep. unfold written.
    destruct (JsMap.get resolvedImages r) as [v|];
      [|inversion Hstep; subst; eauto].
    destruct (Js.truthy v); [|inversion Hstep; subst; eauto].
    destruct (finalSrc w options v) as [href|e]; simpl in Hstep; [|discriminate].
    inversion Hstep; subst. exists href. split; [reflexivity|].
    eapply srcAt_updateAt_same; eauto.
Qed.

(** When the loop runs to its end, every node of the list holds what
    [written] says for the reference it had. *)
Lemma rewriteNodes_completed w options resolvedImages nodes : forall tree,
  NoDup nodes ->
  (rewriteNodes w options resolvedImages nodes tree).2 = None ->
  forall a r, a ∈ nodes -> srcAt tree a = Some r ->
    exists s, written w options resolvedImages r = Ok s
      /\ srcAt (rewriteNodes w options resolvedImages nodes tree).1 a = Some s.
Proof.
  induction nodes as [|a0 nodes IH]; intros tree Hnd Hdone a r Hin Hr;
    [inversion Hin|].
  apply NoDup_cons in Hnd as [Hfresh Hnd]. simpl in *.
  destruct (rewriteNode w options resolvedImages tree a0) as [tree1|e] eqn:Hstep;
    [|discriminate].
  destruct (rewriteNode_ok _ _ _ _ _ _ Hstep) as [Hother Hsame].
  apply elem_of_cons in Hin as [->|Hin].
  - destruct (Hsame r Hr) as (s & Hs & Hs1). exists s. split; [exact Hs|].
    destruct (rewriteNodes_changes w options resolvedImages nodes tree1 a0 Hnd)
      as [->|[Hin _]]; [exact Hs1 | contradiction].
  - apply IH; auto. rewrite Hother; [exact Hr|]. intros ->. contradiction.
Qed.

Lemma preorder_node_unique tree a n n' :
  (a, n) ∈ preorder [] tree -> (a, n') ∈ preorder [] tree -> n = n'.
Proof.
  intros H H'.
  apply preorder_lookup in H as (rel & -> & Hrel).
  apply preorder_lookup in H' as (rel' & Heq & Hrel').
  simpl in Heq. subst rel'. congruence.
Qed.

(** X5: when the pass completes, all the nodes that carried one reference
    carry one and the same [src] afterwards. *)
Theorem same_reference_same_src (w : World) (options : Options) (tree : Node)
    (file : VFile) (filePath : string) (paths : gset string)
    (a b : Address) (na nb : Node) (r : string) :
  candidates file = Some (filePath, paths) ->
  thrown (rehypeAstroImages w options tree file) = None ->
  (a, na) ∈ preorder [] tree -> eligibleSrc paths na = Some r ->
  (b, nb) ∈ preorder [] tree -> eligibleSrc paths nb = Some r ->
  srcAt (treeAfter (rehypeAstroImages w options tree file)) a
  = srcAt (treeAfter (rehypeAstroImages w options tree file)) b.
Proof.
  intros guard Hdone Ha Hea Hb Heb.
  destruct (pass_tree w options tree file filePath paths guard) as [Htree Hthrown].
  rewrite Hthrown in Hdone. rewrite Htree.
  pose proof (imageNodes_NoDup w options filePath paths tree) as Hnd.
  pose proof (inv_nodes _ _ _ _ _ _ (collect_spec w options filePath paths tree))
    as Hnodes.
  destruct (existsSync w (resolveAbsolutePath w options filePath r)) eqn:Hex.
  - assert (accepted w options filePath paths na = Some r) as Hacca
      by (unfold accepted; now rewrite Hea, Hex).
    assert (accepted w options filePath paths nb = Some r) as Haccb
      by (unfold accepted; now rewrite Heb, Hex).
    destruct (visited_image w options tree filePath paths a na r Ha Hacca) as [Hia Hsa].
    destruct (visited_image w options tree filePath paths b nb r Hb Haccb) as [Hib Hsb].
    destruct (rewriteNodes_completed _ _ _ _ tree Hnd Hdone a r Hia Hsa)
      as (sa & Hwa & ->).
    destruct (rewriteNodes_completed _ _ _ _ tree Hnd Hdone b r Hib Hsb)
      as (sb & Hwb & ->).
    congruence.
  - assert (forall c nc, (c, nc) ∈ preorder [] tree -> eligibleSrc paths nc = Some r ->
              srcAt (rewriteNodes w options
                       (resolved (rehypeAstroImages w options tree file))
                       (imageNodes (collect w options filePath paths tree)) tree).1 c
              = Some r) as Hkeep.
    { intros c nc Hc Hec.
      assert (srcAt tree c = Some r) as Hsrc.
      { pose proof Hc as Hc'. apply preorder_lookup in Hc' as (rel & -> & Hrel).
        simpl. unfold srcAt. rewrite Hrel. simpl. eapply eligibleSrc_srcOf; eauto. }
      destruct (rewriteNodes_changes w options
                  (resolved (rehypeAstroImages w options tree file))
                  _ tree c Hnd) as [->|[Hin _]]; [exact Hsrc|].
      rewrite Hnodes in Hin.
      apply elem_of_acceptedAddress in Hin as (n' & r' & Hn' & Hacc).
      rewrite (preorder_node_unique tree c n' nc Hn' Hc) in Hacc.
      unfold accepted in Hacc. rewrite Hec, Hex in Hacc. discriminate. }
    now rewrite (Hkeep a na Ha Hea), (Hkeep b nb Hb Heb).
Qed.

(** The two nodes of the sample document that refer to [./a.png]. *)
Lemma same_reference_same_src_witness :
  srcAt (treeAfter (rehypeAstroImages Sample.world Sample.options Sample.document
                      Sample.file)) [0; 0]
  = srcAt (treeAfter (rehypeAstroImages Sample.world Sample.options Sample.document
                        Sample.file)) [0; 3].
Proof.
  apply (same_reference_same_src Sample.world Sample.options Sample.document
           Sample.file "/proj/src/pages/post.md" Sample.references
           [0; 0] [0; 3] (Sample.img "./a.png") (Sample.img "./a.png") "./a.png").
  - reflexivity.
  - vm_compute. reflexivity.
  - vm_compute. do 2 apply list_elem_of_further. apply list_elem_of_here.
  - vm_compute. reflexivity.
  - vm_compute. do 5 apply list_elem_of_further. apply list_elem_of_here.
  - vm_compute. reflexivity.
Defined.

(** ** Rejected promises *)

Lemma rejected_reference_unchanged w options tree file filePath paths run e :
  candidates file = Some (filePath, paths) ->
  run ∈ runs (rehypeAstroImages w options tree file) ->
  outcome run = Throw e ->
  forall a n, (a, n) ∈ preorder [] tree ->
    eligibleSrc paths n = Some (relativePath run) ->
    srcAt (treeAfter (rehypeAstroImages w options tree file)) a
    = Some (relativePath run).
Proof.
  intros guard Hrun Hout a n Ha He.
  pose proof (runs_NoDup w options tree file filePath paths guard) as Hnd.
  pose proof (runs_key w options tree file filePath paths guard) as Hkey.
  assert (JsMap.get (resolved (rehypeAstroImages w options tree file))
            (relativePath run) = None) as Hnone.
  { rewrite (pass_resolved w options tree file filePath paths guard).
    rewrite processResult_other; [reflexivity|].
    intros run' v Hrun' Hout'.
    pose proof (Hkey run' _ _ Hrun' Hout') as Hk.
    assert (run = run') as <- by (eapply NoDup_fmap_eq; [exact Hnd| | |]; eauto).
    congruence. }
  assert (srcAt tree a = Some (relativePath run)) as Hsrc.
  { pose proof Ha as Ha'. apply preorder_lookup in Ha' as (rel & -> & Hrel).
    simpl. unfold srcAt. rewrite Hrel. simpl. eapply eligibleSrc_srcOf; eauto. }
  destruct (pass_tree w options tree file filePath paths guard) as [-> _].
  destruct (rewriteNodes_changes w options
              (resolved (rehypeAstroImages w options tree file))
              _ tree a (imageNodes_NoDup w options filePath paths tree))
    as [->|(_ & r & v & href & Hr & Hg & _)]; [exact Hsrc|].
  rewrite Hsrc in Hr. inversion Hr; subst r. congruence.
Qed.




Lemma runPipeline_without_metadata w options entry :
  imageMetadata w entry.2 = Ok None ->
  runPipeline w options entry
  = {| relativePath := entry.1; absolutePath := entry.2; optimizerCall := None;
       outcome := Throw (MetadataError entry.1) |}.
Proof. destruct entry as [k v]. simpl. intros H. unfold runPipeline. now rewrite H. Qed.

(** X6: when [imageMetadata] resolves to nothing for an image, its promise
    rejects with an error that names the reference as the document writes
    it, the optimizer is not called, the error is logged as a warning, and
    every node with that reference keeps its [src], whatever else happens
    in the pass. *)
Theorem missing_metadata_is_a_warning (w : World) (options : Options)
    (tree : Node) (file : VFile) (filePath : string) (paths : gset string)
    (run : PipelineRun) :
  candidates file = Some (filePath, paths) ->
  let pass := rehypeAstroImages w options tree file in
  run ∈ runs pass ->
  imageMetadata w (absolutePath run) = Ok None ->
  outcome run = Throw (MetadataError (relativePath run))
  /\ optimizerCall run = None
  /\ MetadataError (relativePath run) ∈ warnings pass
  /\ forall a n, (a, n) ∈ preorder [] tree ->
       eligibleSrc paths n = Some (relativePath run) ->
       srcAt (treeAfter pass) a = Some (relativePath run).
Proof.
  intros guard pass Hrun Hmeta. subst pass.
  assert (outcome run = Throw (MetadataError (relativePath run))
          /\ optimizerCall run = None) as [Hout Hcall].
  { pose proof Hrun as Hrun'.
    rewrite (pass_runs w options tree file filePath paths guard) in Hrun'.
    apply list_elem_of_fmap in Hrun' as (entry & -> & _).
    rewrite runPipeline_absolutePath in Hmeta.
    now rewrite (runPipeline_without_metadata _ _ _ Hmeta). }
  split; [exact Hout|]. split; [exact Hcall|]. split.
  - rewrite (pass_warnings w options tree file filePath paths guard).
    eapply warningsOf_elem; eauto.
  - eapply rejected_reference_unchanged; eauto.
Qed.

(** The logo of the sample project, with an image service that knows no
    image. *)
Lemma missing_metadata_is_a_warning_witness :
  let pass := rehypeAstroImages worldWithoutMetadata Sample.options
                Sample.document Sample.file in
  MetadataError "~/assets/logo.png" ∈ warnings pass
  /\ srcAt (treeAfter pass) [1] = Some "~/assets/logo.png".
Proof.
  set (run := {| relativePath := "~/assets/logo.png";
                 absolutePath := "/proj/src/assets/logo.png";
                 optimizerCall := None;
                 outcome := Throw (MetadataError "~/assets/logo.png") |}).
  destruct (missing_metadata_is_a_warning worldWithoutMetadata Sample.options
              Sample.document Sample.file "/proj/src/pages/post.md"
              Sample.references run)
    as (_ & _ & Hwarning & Hkeep).
  - reflexivity.
  - vm_compute. do 2 apply list_elem_of_further. apply list_elem_of_here.
  - reflexivity.
  - split; [exact Hwarning|].
    apply (Hkeep [1] (Sample.img "~/assets/logo.png")); [|vm_compute; reflexivity].
    vm_compute. do 6 apply list_elem_of_further. apply list_elem_of_here.
Defined.

(** ** The options a pass depends on *)

Lemma visitor_ext w o1 o2 filePath paths st x :
  rootPath o1 = rootPath o2 ->
  visitor w o1 filePath paths st x = visitor w o2 filePath paths st x.
Proof.
  intros H. unfold visitor, resolveAbsolutePath. destruct x as [a n].
  now rewrite H.
Qed.

Lemma collect_ext w o1 o2 filePath paths tree :
  rootPath o1 = rootPath o2 ->
  collect w o1 filePath paths tree = collect w o2 filePath paths tree.
Proof.
  intros H. unfold collect. generalize (preorder [] tree).
  generalize {| imageNodes := []; imagesToResolve := [] |}.
  intros st l. revert st. induction l as [|x l IH]; intros st; [reflexivity|].
  simpl. now rewrite (visitor_ext w o1 o2 _ _ _ _ H), IH.
Qed.

Lemma runPipeline_ext w o1 o2 entry :
  viteConfig o1 = viteConfig o2 -> runPipeline w o1 entry = runPipeline w o2 entry.
Proof. intros H. unfold runPipeline. destruct entry. now rewrite H. Qed.

Lemma rewriteNodes_ext w o1 o2 resolvedImages nodes : forall tree,
  (forall v, finalSrc w o1 v = finalSrc w o2 v) ->
  rewriteNodes w o1 resolvedImages nodes tree
  = rewriteNodes w o2 resolvedImages nodes tree.
Proof.
  induction nodes as [|a nodes IH]; intros tree H; [reflexivity|]. simpl.
  assert (rewriteNode w o1 resolvedImages tree a = rewriteNode w o2 resolvedImages tree a)
    as -> by (unfold rewriteNode;
              destruct (srcAt tree a); [|reflexivity];
              destruct (JsMap.get resolvedImages s) as [v|]; [|reflexivity];
              now rewrite H).
  destruct (rewriteNode w o2 resolvedImages tree a); [now apply IH | reflexivity].
Qed.

(** X7: an empty string given as [rootUrl] counts as no [rootUrl]: the pass
    is the same in every respect, and the [URL] constructor is not used. *)
Theorem empty_root_url_is_no_root_url (w : World) (root : string)
    (config : option ViteConfig) (tree : Node) (file : VFile) :
  rehypeAstroImages w {| rootPath := root; rootUrl := Some ""; viteConfig := config |}
    tree file
  = rehypeAstroImages w {| rootPath := root; rootUrl := None; viteConfig := config |}
      tree file.
Proof.
  set (o1 := {| rootPath := root; rootUrl := Some ""; viteConfig := config |}).
  set (o2 := {| rootPath := root; rootUrl := None; viteConfig := config |}).
  unfold rehypeAstroImages.
  destruct (candidates file) as [[filePath paths]|]; [|reflexivity].
  rewrite (collect_ext w o1 o2 filePath paths tree eq_refl).
  assert (runPipeline w o1 = runPipeline w o2) as -> by reflexivity.
  now rewrite (rewriteNodes_ext w o1 o2).
Qed.

(** ** The resolved path *)

Lemma segments_no_slash s :
  Forall (fun segment => Js.occurs "/" segment = false) (Path.segments s).
Proof.
  induction s as [|c s IH]; simpl; [repeat constructor|].
  destruct (Js.is_slash c) eqn:Ec; [constructor; [reflexivity | exact IH]|].
  destruct (Path.segments s) as [|h t]; [repeat constructor; simpl|].
  - unfold Js.is_slash, Js.slash in Ec. now rewrite Ec.
  - apply Forall_cons in IH as [Hh Ht]. constructor; [|exact Ht].
    simpl. unfold Js.is_slash, Js.slash in Ec. now rewrite Ec, Hh.
Qed.

Lemma norm_step_clean stack segment :
  Forall cleanSegment stack -> Js.occurs "/" segment = false ->
  Forall cleanSegment (Path.norm_step false stack segment).
Proof.
  intros Hstack Hseg. unfold Path.norm_step.
  destruct (String.eqb_spec segment "") as [|Hempty]; [assumption|].
  destruct (String.eqb_spec segment ".") as [|Hdot]; [assumption|]. simpl.
  destruct (String.eqb_spec segment "..") as [|Hdots].
  - destruct stack as [|top below]; [constructor|].
    destruct (String.eqb top ".."); [assumption|].
    now apply Forall_cons in Hstack as [_ ?].
  - constructor; [|assumption]. now repeat split.
Qed.

Lemma normalizeString_clean path :
  exists segs, Path.normalizeString path false = String.concat "/" segs
               /\ Forall cleanSegment segs.
Proof.
  unfold Path.normalizeString. eexists. split; [reflexivity|].
  apply Forall_rev.
  assert (forall l stack,
            Forall cleanSegment stack ->
            Forall (fun segment => Js.occurs "/" segment = false) l ->
            Forall cleanSegment (fold_left (Path.norm_step false) l stack)) as H.
  { induction l as [|x l IH]; intros stack Hs Hl; [assumption|]. simpl.
    apply Forall_cons in Hl as [Hx Hl]. apply IH; [|assumption].
    now apply norm_step_clean. }
  apply H; [constructor | apply segments_no_slash].
Qed.

(** With an absolute working directory the loop of [path.resolve] always
    ends on an absolute path. *)
Lemma resolve_loop_reaches_root cwd : forall l acc,
  Path.isAbsolute cwd = true -> (Path.resolve_loop (l ++ [cwd]) acc).2 = true.
Proof.
  intros l acc Hcwd. revert acc.
  induction l as [|p l IH]; intros acc; simpl.
  - destruct cwd; [discriminate|]. simpl in *. now rewrite Hcwd.
  - destruct (String.eqb p ""); [apply IH|].
    destruct (Path.isAbsolute p); [reflexivity | apply IH].
Qed.

Lemma resolve_clean cwd args :
  Path.isAbsolute cwd = true ->
  exists segs, Path.resolve cwd args = "/" +:+ String.concat "/" segs
               /\ Forall cleanSegment segs.
Proof.
  intros Hcwd. unfold Path.resolve.
  pose proof (resolve_loop_reaches_root cwd (rev args) "" Hcwd) as H.
  destruct (Path.resolve_loop (rev args ++ [cwd]) "") as [resolvedPath absolute].
  simpl in H. subst absolute. simpl negb.
  destruct (normalizeString_clean resolvedPath) as (segs & -> & Hclean). eauto.
Qed.

(** X8: with an absolute working directory, the path checked on disk and
    handed to the image service is absolute and normalized: a separator
    followed by segments joined by separators, none of them empty, [.]
    or [..]. *)
Theorem resolved_path_is_normalized (w : World) (options : Options)
    (filePath src : string) :
  Path.isAbsolute (cwd w) = true ->
  exists segs,
    resolveAbsolutePath w options filePath src = "/" +:+ String.concat "/" segs
    /\ Forall cleanSegment segs.
Proof.
  intros Hcwd. unfold resolveAbsolutePath.
  destruct (Js.startsWith src "~/assets/"); now apply resolve_clean.
Qed.

Lemma resolved_path_is_normalized_witness :
  exists segs,
    resolveAbsolutePath Sample.world Sample.options "/proj/src/pages/post.md"
      "../pages/./img//a.png"
    = "/" +:+ String.concat "/" segs
    /\ Forall cleanSegment segs.
Proof.
  apply (resolved_path_is_normalized Sample.world Sample.options
           "/proj/src/pages/post.md" "../pages/./img//a.png").
  reflexivity.
Defined.

Lemma resolve_loop_stops l rest rest' : forall acc,
  (exists p, p ∈ l /\ Path.isAbsolute p = true) ->
  Path.resolve_loop (l ++ rest) acc = Path.resolve_loop (l ++ rest') acc.
Proof.
  induction l as [|p l IH]; intros acc (q & Hq & Habs); [inversion Hq|].
  simpl. destruct (String.eqb_spec p "") as [->|Hne].
  - apply IH. apply elem_of_cons in Hq as [->|Hq]; [discriminate | eauto].
  - destruct (Path.isAbsolute p) eqn:Ep; [reflexivity|].
    apply IH. apply elem_of_cons in Hq as [->|Hq]; [congruence | eauto].
Qed.

Lemma resolve_ignores_cwd cwd cwd' args :
  (exists p, p ∈ args /\ Path.isAbsolute p = true) ->
  Path.resolve cwd args = Path.resolve cwd' args.
Proof.
  intros (p & Hp & Habs). unfold Path.resolve.
  rewrite (resolve_loop_stops (rev args) [cwd] [cwd']); [reflexivity|].
  exists p. split; [|assumption].
  apply list_elem_of_In, in_rev. rewrite rev_involutive. now apply list_elem_of_In.
Qed.

Lemma dirname_absolute path :
  Path.isAbsolute path = true -> Path.isAbsolute (Path.dirname path) = true.
Proof.
  destruct path as [|c tail]; [discriminate|]. simpl. intros Hc.
  unfold Path.dirname. rewrite Hc.
  destruct (Path.dirname_scan true _) as [below|]; [|reflexivity].
  simpl. destruct (bool_decide (below = [])); [reflexivity | exact Hc].
Qed.

(** X9: when the project root and the path of the document are absolute,
    the resolved path of a reference does not depend on the working
    directory of the process. *)
Theorem resolution_ignores_cwd (w w' : World) (options : Options)
    (filePath src : string) :
  Path.isAbsolute (rootPath options) = true ->
  Path.isAbsolute filePath = true ->
  resolveAbsolutePath w options filePath src
  = resolveAbsolutePath w' options filePath src.
Proof.
  intros Hroot Hfile. unfold resolveAbsolutePath.
  destruct (Js.startsWith src "~/assets/"); apply resolve_ignores_cwd.
  - exists (rootPath options). split; [now left | assumption].
  - exists (Path.dirname filePath). split; [now left | now apply dirname_absolute].
Qed.

Lemma resolution_ignores_cwd_witness :
  resolveAbsolutePath Sample.world Sample.options "/proj/src/pages/post.md" "./a.png"
  = resolveAbsolutePath (sampleWorldIn "/somewhere/else") Sample.options
      "/proj/src/pages/post.md" "./a.png".
Proof.
  apply (resolution_ignores_cwd Sample.world (sampleWorldIn "/somewhere/else")
           Sample.options
           "/proj/src/pages/post.md" "./a.png"); reflexivity.
Defined.

(** ** Base names and extensions *)

#[local] Arguments Path.extname : simpl never.
#[local] Arguments Path.basename : simpl never.

Lemma occurs_list c s :
  Js.occurs c s = false <->
  Forall (fun x => Ascii.eqb x c = false) (list_ascii_of_string s).
Proof.
  induction s as [|x s IH]; simpl.
  - split; [constructor | reflexivity].
  - rewrite orb_false_iff, Forall_cons, IH. reflexivity.
Qed.

Lemma occurs_of_list c l :
  Forall (fun x => Ascii.eqb x c = false) l ->
  Js.occurs c (string_of_list_ascii l) = false.
Proof.
  intros H. apply occurs_list. now rewrite list_ascii_of_string_of_list_ascii.
Qed.

Lemma length_list_ascii s : length (list_ascii_of_string s) = String.length s.
Proof. induction s as [|c s IH]; simpl; [reflexivity | now rewrite IH]. Qed.

(** The loop of [path.extname] on characters without a separator: it never
    breaks, the end is the end of the string, and the dot it finds is inside
    the string. *)
Lemma extname_loop_noslash : forall l i st,
  Forall (fun c => Js.is_slash c = false) l ->
  i = (Z.of_nat (length l) - 1)%Z ->
  let st' := Path.extname_loop l i st in
  Path.startPart st' = Path.startPart st
  /\ Path.endIdx st'
     = (if (Path.endIdx st =? -1)%Z
        then match l with [] => -1 | _ => i + 1 end
        else Path.endIdx st)%Z
  /\ (Path.startDot st' = Path.startDot st
      \/ (Path.startDot st = -1 /\ 0 <= Path.startDot st' <= i)%Z).
Proof.
  induction l as [|c l IH]; intros i st Hl Hi; simpl.
  - split; [reflexivity|]. split; [|now left].
    destruct (Z.eqb_spec (Path.endIdx st) (-1)); congruence.
  - apply Forall_cons in Hl as [Hc Hl]. rewrite Hc.
    simpl length in Hi.
    match goal with |- context [Path.extname_loop l (i - 1) ?s] =>
      destruct (IH (i - 1)%Z s Hl ltac:(lia)) as (Hpart & Hend & Hdot);
      rewrite Hpart, Hend; clear Hpart Hend
    end.
    destruct (Z.eqb_spec (Path.endIdx st) (-1)) as [He|He];
      destruct (Js.is_dot c); simpl in *;
      repeat match goal with
             | |- context [(?x =? ?y)%Z] => destruct (Z.eqb_spec x y); simpl in *
             | H : context [(?x =? ?y)%Z] |- _ => destruct (Z.eqb_spec x y); simpl in *
             end;
      (split; [reflexivity|]); (split; [try reflexivity; try lia|]);
      try (destruct l; simpl in *; lia);
      lia.
Qed.

Lemma substring_all s : String.substring 0 (String.length s) s = s.
Proof. induction s as [|c s IH]; simpl; [reflexivity | now rewrite IH]. Qed.

Lemma length_substring : forall s n m,
  n + m <= String.length s -> String.length (String.substring n m s) = m.
Proof.
  induction s as [|c s IH]; intros [|n] [|m] H; simpl in *; try reflexivity; try lia.
  - rewrite IH; [reflexivity | lia].
  - apply IH. lia.
  - apply IH. lia.
Qed.

Lemma substring_split : forall s d,
  d <= String.length s ->
  String.substring 0 d s +:+ String.substring d (String.length s - d) s = s.
Proof.
  induction s as [|c s IH]; intros [|d] H; simpl in *; try reflexivity; try lia.
  - now rewrite substring_all.
  - rewrite IH; [reflexivity | lia].
Qed.

(** On a name without separators the extension is empty or a proper
    suffix. *)
Lemma extname_noslash path :
  Js.occurs "/" path = false ->
  Path.extname path = ""
  \/ exists d, d < String.length path
       /\ Path.extname path = String.substring d (String.length path - d) path.
Proof.
  intros Hpath. unfold Path.extname.
  match goal with |- context [Path.extname_loop ?l ?i ?st] =>
    destruct (extname_loop_noslash l i st) as (Hpart & Hend & Hdot)
  end.
  { apply Forall_rev. now apply occurs_list. }
  { now rewrite length_rev, length_list_ascii. }
  simpl in Hpart, Hend, Hdot.
  destruct (_ || _) eqn:Econd; [now left|]. right.
  apply orb_false_iff in Econd as [Econd _].
  apply orb_false_iff in Econd as [Econd _].
  apply orb_false_iff in Econd as [Edot Eend].
  apply Z.eqb_neq in Edot, Eend.
  destruct Hdot as [Hdot|[_ Hdot]]; [congruence|].
  assert (Path.endIdx (Path.extname_loop (rev (list_ascii_of_string path))
            (Z.of_nat (String.length path) - 1)
            {| Path.startDot := -1; Path.startPart := 0; Path.endIdx := -1;
               Path.matchedSlash := true; Path.preDotState := 0 |})
          = Z.of_nat (String.length path)) as Hlen.
  { rewrite Hend in Eend |- *. revert Eend.
    destruct (rev (list_ascii_of_string path)); intros Eend; [congruence | lia]. }
  rewrite Hlen. eexists (Z.to_nat _). split; [|f_equal]; lia.
Qed.

(** [name] and [extname] of the replacements split the name in two. *)
Lemma stem_extname name :
  Js.occurs "/" name = false ->
  Js.slice_to name
    (Z.to_nat (Z.max 0 (Z.of_nat (String.length name)
                        - Z.of_nat (String.length (Path.extname name)))))
  +:+ Path.extname name = name.
Proof.
  intros Hname. unfold Js.slice_to.
  destruct (extname_noslash name Hname) as [->|(d & Hd & ->)].
  - simpl String.length. rewrite append_nil_r.
    replace (Z.to_nat _) with (String.length name) by lia. apply substring_all.
  - rewrite length_substring by lia.
    replace (Z.to_nat _) with d by lia. apply substring_split. lia.
Qed.

Lemma take_component_no_slash l :
  Forall (fun c => Ascii.eqb c "/" = false) (Path.take_component l).
Proof.
  induction l as [|c l IH]; simpl; [constructor|].
  destruct (Js.is_slash c) eqn:Ec; [constructor|]. now constructor.
Qed.

(** A base name holds no separator. *)
Lemma basename_no_slash path : Js.occurs "/" (Path.basename path) = false.
Proof.
  unfold Path.basename. apply occurs_of_list, Forall_rev, take_component_no_slash.
Qed.

(** ** File names *)


Lemma prefix_slice_to s n : String.prefix (Js.slice_to s n) s = true.
Proof.
  unfold Js.slice_to. revert n.
  induction s as [|c s IH]; intros [|n]; simpl; try reflexivity.
  destruct (ascii_dec c c); [apply IH | contradiction].
Qed.

(** X10: the hash of a file is always the first 8 characters of the
    SHA-256 hex digest of its content: exactly 8 of them, all lower-case
    hex digits. *)
Theorem getImageHash_is_eight_hex_digits (content : list byte) :
  String.length (getImageHash content) = 8
  /\ Js.all Js.is_hex (getImageHash content) = true
  /\ Js.startsWith (Sha256.digest_hex content) (getImageHash content) = true.
Proof.
  unfold getImageHash. split; [|split].
  - rewrite length_slice_to, digest_hex_length. reflexivity.
  - apply all_slice_to, digest_hex_is_hex.
  - apply prefix_slice_to.
Qed.

Lemma occurs_append c a b : Js.occurs c (a +:+ b) = Js.occurs c a || Js.occurs c b.
Proof.
  induction a as [|x a IH]; [reflexivity|].
  change (String x a +:+ b) with (String x (a +:+ b)). cbn [Js.occurs].
  rewrite IH. now rewrite orb_assoc.
Qed.

(** A match ends with a closing bracket. *)
Lemma match_token_closes s type size rest :
  match_token s = Some (type, size, rest) -> Js.occurs "]" s = true.
Proof.
  destruct s as [|c s]; [discriminate|]. unfold match_token.
  destruct (Ascii.eqb c "["); [|discriminate].
  destruct (Js.span Js.is_word s) as [u v] eqn:Ew.
  apply span_append in Ew. subst s.
  destruct (Js.truthy u); [|discriminate].
  destruct v as [|c2 v]; [discriminate|].
  cbn [Js.occurs]. rewrite occurs_append. cbn [Js.occurs].
  destruct (Ascii.eqb c2 "]") eqn:E2; [intros _; now rewrite !orb_true_r|].
  destruct (Ascii.eqb c2 ":"); [|discriminate].
  destruct (Js.span Js.is_digit v) as [d v4] eqn:Ed.
  apply span_append in Ed. subst v.
  destruct (Js.truthy d); [|discriminate].
  destruct v4 as [|c4 v4]; [discriminate|].
  destruct (Ascii.eqb c4 "]") eqn:E4; [|discriminate].
  intros _. rewrite occurs_append. cbn [Js.occurs]. rewrite E4.
  now rewrite !orb_true_r.
Qed.

Lemma replaceTokens_unclosed replacements fuel s :
  String.length s <= fuel -> Js.occurs "]" s = false ->
  replaceTokens fuel replacements s = Ok s.
Proof.
  revert fuel. induction s as [|c s IH]; intros fuel Hfuel Hs;
    [now destruct fuel|].
  destruct fuel as [|fuel]; [simpl in Hfuel; lia|]. cbn [replaceTokens].
  destruct (match_token (String c s)) as [[[type size] rest]|] eqn:E.
  - apply match_token_closes in E. congruence.
  - cbn [Js.occurs] in Hs. apply orb_false_iff in Hs as [_ Hs].
    rewrite IH by (simpl in Hfuel; lia || assumption). reflexivity.
Qed.

(** X11: a template without an opening bracket, or without a closing one,
    is the file name as it stands; rendering it cannot throw. *)
Theorem pattern_without_brackets_is_literal (name : string) (source : list byte)
    (sourceHash pattern : string) :
  Js.occurs "[" pattern = false \/ Js.occurs "]" pattern = false ->
  generateAssetFileName name source sourceHash (PatternString pattern) = Ok pattern.
Proof.
  unfold generateAssetFileName, renderNamePattern.
  intros [H|H]; [now apply replaceTokens_plain | now apply replaceTokens_unclosed].
Qed.

Lemma pattern_without_brackets_is_literal_witness :
  generateAssetFileName "photo.png" [] "abcdef12" (PatternString "img/[name-[hash")
  = Ok "img/[name-[hash".
Proof.
  apply pattern_without_brackets_is_literal. right. reflexivity.
Defined.

(** More fuel than the length of the pattern changes nothing. *)
Lemma replaceTokens_enough replacements : forall fuel fuel' s,
  String.length s <= fuel -> String.length s <= fuel' ->
  replaceTokens fuel replacements s = replaceTokens fuel' replacements s.
Proof.
  induction fuel as [|fuel IH]; intros fuel' s H H'.
  - destruct s; [now destruct fuel' | simpl in H; lia].
  - destruct s as [|c s]; [now destruct fuel'|].
    destruct fuel' as [|fuel']; [simpl in H'; lia|]. cbn [replaceTokens].
    destruct (match_token (String c s)) as [[[type size] rest]|] eqn:E.
    + apply match_token_shorter in E.
      rewrite (IH fuel' rest) by (simpl in *; lia). reflexivity.
    + rewrite (IH fuel' s) by (simpl in *; lia). reflexivity.
Qed.

Lemma replaceTokens_literal replacements literal : forall fuel rest,
  Js.occurs "[" literal = false ->
  String.length (literal +:+ rest) <= fuel ->
  replaceTokens fuel replacements (literal +:+ rest)
  = out ← replaceTokens (String.length rest) replacements rest; Ok (literal +:+ out).
Proof.
  induction literal as [|c literal IH]; intros fuel rest Hlit Hfuel.
  - change ("" +:+ rest) with rest in *.
    rewrite (replaceTokens_enough _ fuel (String.length rest)) by lia.
    now destruct (replaceTokens _ _ rest).
  - change (String c literal +:+ rest) with (String c (literal +:+ rest)) in *.
    cbn [Js.occurs] in Hlit. apply orb_false_iff in Hlit as [Hc Hlit].
    destruct fuel as [|fuel]; [simpl in Hfuel; lia|]. cbn [replaceTokens].
    rewrite (match_token_plain _ _ Hc), IH by (simpl in Hfuel; lia || assumption).
    now destruct (replaceTokens _ _ rest).
Qed.

(** X12: rendering goes from left to right, piece by piece: text without
    an opening bracket is copied and a token is replaced by what its
    replacement returns, each followed by the rendering of what comes
    after it. *)
Theorem rendering_is_compositional (name : string) (source : list byte)
    (sourceHash literal type : string) (size : option string) (rest : string) :
  Js.occurs "[" literal = false ->
  well_formed type size ->
  generateAssetFileName name source sourceHash (PatternString (literal +:+ rest))
  = (out ← generateAssetFileName name source sourceHash (PatternString rest);
     Ok (literal +:+ out))
  /\ generateAssetFileName name source sourceHash
       (PatternString (token type size +:+ rest))
  = (replacement ← replaceToken (replacementsFor name sourceHash) type
                     (String ":"%char <$> size);
     out ← generateAssetFileName name source sourceHash (PatternString rest);
     Ok (replacement +:+ out)).
Proof.
  intros Hlit Hwf. unfold generateAssetFileName, renderNamePattern. split.
  - now apply replaceTokens_literal.
  - rewrite replaceTokens_token by (assumption || reflexivity).
    rewrite (replaceTokens_enough _ (pred _) (String.length rest)); [reflexivity| |lia].
    unfold token. string_len.
Qed.

Lemma rendering_is_compositional_witness :
  generateAssetFileName "photo.png" [] "abcdef12"
    (PatternString ("img/" +:+ "[name].webp"))
  = (out ← generateAssetFileName "photo.png" [] "abcdef12" (PatternString "[name].webp");
     Ok ("img/" +:+ out))
  /\ generateAssetFileName "photo.png" [] "abcdef12"
       (PatternString (token "hash" (Some "4") +:+ "[name].webp"))
  = (replacement ← replaceToken (replacementsFor "photo.png" "abcdef12") "hash"
                     (Some ":4");
     out ← generateAssetFileName "photo.png" [] "abcdef12" (PatternString "[name].webp");
     Ok (replacement +:+ out)).
Proof.
  apply (rendering_is_compositional "photo.png" [] "abcdef12" "img/" "hash" (Some "4")
           "[name].webp"); [reflexivity | now vm_compute].
Defined.

(** X13: with the template ["[name][extname]"] the asset file name of a
    readable file is its base name: the two placeholders split the name
    without losing or adding a character. *)
Theorem name_and_extname_restore_base_name (w : World) (absolutePath : string)
    (data : list byte) (config : option ViteConfig) :
  readFileSync w absolutePath = Some data ->
  rollupOutput config
  = Some (SingleOutput {| assetFileNames := Some (PatternString "[name][extname]") |}) ->
  getImageAssetFileName w absolutePath config = Ok (Path.basename absolutePath).
Proof.
  intros Hread Hconfig.
  unfold getImageAssetFileName, getImageSource. rewrite Hread, Hconfig. simpl.
  unfold generateAssetFileName, renderNamePattern. simpl.
  rewrite append_nil_r. f_equal. apply stem_extname, basename_no_slash.
Qed.

Lemma name_and_extname_restore_base_name_witness :
  getImageAssetFileName Sample.world "/proj/src/assets/logo.png"
    (viteConfig (Sample.withOutput
       (SingleOutput {| assetFileNames := Some (PatternString "[name][extname]") |})))
  = Ok "logo.png".
Proof.
  apply (name_and_extname_restore_base_name Sample.world "/proj/src/assets/logo.png"
           (list_byte_of_string "LOGO")); reflexivity.
Defined.

Lemma default_pattern_rendering name source sourceHash :
  generateAssetFileName name source sourceHash defaultAssetFileNames
  = Ok ("assets/"
        +:+ Js.slice_to name
              (Z.to_nat (Z.max 0 (Z.of_nat (String.length name)
                                  - Z.of_nat (String.length (Path.extname name)))))
        +:+ "-" +:+ Js.slice_to sourceHash 8 +:+ Path.extname name).
Proof.
  unfold generateAssetFileName, renderNamePattern, defaultAssetFileNames. simpl.
  now rewrite append_nil_r.
Qed.

Lemma append_cancel_r (a b c : string) : a +:+ c = b +:+ c -> a = b.
Proof.
  revert b. induction a as [|x a IH]; intros [|y b] H.
  - reflexivity.
  - apply (f_equal String.length) in H. revert H. string_len.
  - apply (f_equal String.length) in H. revert H. string_len.
  - change (String x (a +:+ c) = String y (b +:+ c)) in H.
    injection H as -> H. f_equal. now apply IH.
Qed.

(** X14: without a usable [assetFileNames] (no configuration, no such
    option, or an empty string) the asset file name of a readable file is
    [assets/], the base name without its extension, a dash, the 8
    characters of the hash and the extension. *)
Theorem default_asset_file_name (w : World) (absolutePath : string)
    (config : option ViteConfig) (data : list byte) (stem : string) :
  isArray (rollupOutput config) = false ->
  assetFileNamesOrDefault (rollupOutput config) = defaultAssetFileNames ->
  readFileSync w absolutePath = Some data ->
  stem +:+ Path.extname (Path.basename absolutePath) = Path.basename absolutePath ->
  getImageAssetFileName w absolutePath config
  = Ok ("assets/" +:+ stem +:+ "-" +:+ getImageHash data
          +:+ Path.extname (Path.basename absolutePath)).
Proof.
  intros Harray Hdefault Hread Hstem.
  unfold getImageAssetFileName, getImageSource. rewrite Hread.
  cbn [mbind Result_bind]. rewrite Harray, Hdefault, default_pattern_rendering.
  pose proof (stem_extname _ (basename_no_slash absolutePath)) as Hsplit.
  rewrite <- Hstem in Hsplit at 5. apply append_cancel_r in Hsplit.
  rewrite Hsplit. unfold getImageHash. rewrite slice_to_slice_to. reflexivity.
Qed.

Lemma default_asset_file_name_witness :
  getImageAssetFileName Sample.world "/proj/src/assets/logo.png"
    (viteConfig (Sample.withOutput
       (SingleOutput {| assetFileNames := Some (PatternString "") |})))
  = Ok ("assets/" +:+ "logo" +:+ "-" +:+ getImageHash (list_byte_of_string "LOGO")
          +:+ ".png").
Proof.
  apply (default_asset_file_name Sample.world "/proj/src/assets/logo.png" _
           (list_byte_of_string "LOGO") "logo"); reflexivity.
Defined.

(** The dot found by the loop of [path.extname] is a dot of the string. *)
Lemma extname_loop_dot : forall l i st,
  Forall (fun c => Js.is_slash c = false) l ->
  i = (Z.of_nat (length l) - 1)%Z ->
  let st' := Path.extname_loop l i st in
  Path.startDot st' = Path.startDot st
  \/ exists d, Path.startDot st' = Z.of_nat d /\ rev l !! d = Some "."%char.
Proof.
  induction l as [|c l IH]; intros i st Hl Hi; [now left|].
  apply Forall_cons in Hl as [Hc Hl]. cbn [Path.extname_loop]. rewrite Hc.
  simpl length in Hi. cbn zeta.
  match goal with |- context [Path.extname_loop l (i - 1) ?s] =>
    destruct (IH (i - 1)%Z s Hl ltac:(lia)) as [Hsame|(d & Hd & Hlook)]
  end.
  - rewrite Hsame. clear Hsame.
    destruct (Js.is_dot c) eqn:Edot.
    + destruct (Z.eqb_spec (Path.endIdx st) (-1)); cbn [Path.startDot];
        (destruct (Z.eqb_spec (Path.startDot st) (-1));
         [right; exists (length l); split; [cbn [Path.startDot]; lia|]
         | left; now destruct (negb _)]);
        simpl rev; rewrite lookup_app_r by (rewrite length_rev; lia);
        rewrite length_rev, Nat.sub_diag; simpl; f_equal;
        symmetry; now apply Ascii.eqb_eq.
    + left. destruct (Z.eqb_spec (Path.endIdx st) (-1)); cbn [Path.startDot];
        now destruct (negb _).
  - right. exists d. split; [assumption|]. simpl rev.
    now apply lookup_app_l_Some.
Qed.

Lemma substring_lookup : forall s d m c,
  list_ascii_of_string s !! d = Some c ->
  exists rest, String.substring d (S m) s = String c rest.
Proof.
  induction s as [|x s IH]; intros [|d] m c H; simpl in *; try discriminate.
  - injection H as ->. eauto.
  - now apply IH.
Qed.

(** An extension starts with its dot. *)
Lemma extname_dot path :
  Js.occurs "/" path = false ->
  Path.extname path = "" \/ exists ext, Path.extname path = String "." ext.
Proof.
  intros Hpath. unfold Path.extname.
  match goal with |- context [Path.extname_loop ?l ?i ?st] =>
    destruct (extname_loop_noslash l i st) as (_ & Hend & Hin);
    [| |destruct (extname_loop_dot l i st) as [Hdot|(d & Hd & Hdot)]]
  end; try (apply Forall_rev; now apply occurs_list);
    try (now rewrite length_rev, length_list_ascii).
  - left. simpl in Hdot. rewrite Hdot. reflexivity.
  - destruct (_ || _) eqn:Econd; [now left|]. right.
    apply orb_false_iff in Econd as [Econd _].
    apply orb_false_iff in Econd as [Econd _].
    apply orb_false_iff in Econd as [Edot Eend].
    apply Z.eqb_neq in Edot, Eend.
    simpl in Hend, Hin. destruct Hin as [Hin|[_ Hin]]; [congruence|].
    rewrite rev_involutive in Hdot.
    assert (Path.endIdx (Path.extname_loop (rev (list_ascii_of_string path))
              (Z.of_nat (String.length path) - 1)
              {| Path.startDot := -1; Path.startPart := 0; Path.endIdx := -1;
                 Path.matchedSlash := true; Path.preDotState := 0 |})
            = Z.of_nat (String.length path)) as Hlen.
    { rewrite Hend in Eend |- *. revert Eend.
      destruct (rev (list_ascii_of_string path)); intros Eend; [congruence | lia]. }
    rewrite Hlen, Hd, Nat2Z.id.
    replace (Z.to_nat _) with (S (String.length path - d - 1)) by lia.
    now apply substring_lookup.
Qed.

(** X15: [[ext]] is the extension without its dot: with the template
    ["[name].[ext]"] the asset file name of a readable file is its base name
    when the base name has an extension, and the base name followed by a
    dot when it has none. *)
Theorem name_dot_ext_restores_base_name (w : World) (absolutePath : string)
    (data : list byte) (config : option ViteConfig) :
  readFileSync w absolutePath = Some data ->
  rollupOutput config
  = Some (SingleOutput {| assetFileNames := Some (PatternString "[name].[ext]") |}) ->
  getImageAssetFileName w absolutePath config
  = Ok (if Js.truthy (Path.extname (Path.basename absolutePath))
        then Path.basename absolutePath
        else Path.basename absolutePath +:+ ".").
Proof.
  intros Hread Hconfig.
  unfold getImageAssetFileName, getImageSource. rewrite Hread, Hconfig.
  cbn [mbind Result_bind isArray assetFileNamesOrDefault].
  pose proof (stem_extname _ (basename_no_slash absolutePath)) as Hsplit.
  revert Hsplit.
  destruct (extname_dot _ (basename_no_slash absolutePath)) as [E|(ext & E)];
    generalize (Path.basename absolutePath) E; clear E; intros base E;
    unfold generateAssetFileName, renderNamePattern; simpl; rewrite E;
    rewrite !append_nil_r; intros Hsplit.
  - now rewrite Hsplit.
  - rewrite <- Hsplit at 3. reflexivity.
Qed.

Lemma name_dot_ext_restores_base_name_witness :
  getImageAssetFileName Sample.world "/proj/src/assets/logo.png"
    (viteConfig (Sample.withOutput
       (SingleOutput {| assetFileNames := Some (PatternString "[name].[ext]") |})))
  = Ok "logo.png".
Proof.
  apply (name_dot_ext_restores_base_name Sample.world "/proj/src/assets/logo.png"
           (list_byte_of_string "LOGO")); reflexivity.
Defined.

(** ** The order of the promises *)

Lemma elem_of_firstOccurrences l x : x ∈ firstOccurrences l <-> x ∈ l.
Proof.
  induction l as [|y l IH]; [reflexivity|]. cbn [firstOccurrences].
  rewrite !elem_of_cons, list_elem_of_filter, IH.
  destruct (decide (x = y)); tauto.
Qed.

Lemma firstOccurrences_snoc l x :
  firstOccurrences (l ++ [x])
  = (firstOccurrences l ++ if decide (x ∈ l) then [] else [x])%list.
Proof.
  induction l as [|y l IH]; [reflexivity|].
  change ((y :: l) ++ [x])%list with (y :: (l ++ [x]))%list.
  cbn [firstOccurrences]. rewrite IH, filter_app. cbn [app]. f_equal. f_equal.
  destruct (decide (x ∈ l)) as [Hin|Hin].
  - rewrite decide_True by now right. reflexivity.
  - destruct (decide (x = y)) as [->|Hne].
    + rewrite decide_True by now left.
      rewrite filter_cons_False by (intros H; now apply H). reflexivity.
    + rewrite decide_False by (rewrite elem_of_cons; tauto).
      now rewrite filter_cons_True.
Qed.

Lemma fold_visitor_keys w options filePath paths l :
  JsMap.keys (imagesToResolve
                (fold_left (visitor w options filePath paths) l
                   {| imageNodes := []; imagesToResolve := [] |}))
  = firstOccurrences
      (omap (fun visited : Address * Node =>
               accepted w options filePath paths visited.2) l).
Proof.
  induction l as [|[a n] l IH] using rev_ind; [reflexivity|].
  rewrite fold_left_app, omap_app. cbn [fold_left omap list_omap snd].
  pose proof (fold_visitor_inv w options filePath paths l) as [_ Hvalues _ _].
  revert IH Hvalues.
  generalize (fold_left (visitor w options filePath paths) l
                {| imageNodes := []; imagesToResolve := [] |}).
  intros st IH Hvalues. unfold visitor, accepted in *.
  destruct (eligibleSrc paths n) as [src|]; [|now rewrite app_nil_r].
  destruct (JsMap.has (imagesToResolve st) src) eqn:Ehas.
  - assert (existsSync w (resolveAbsolutePath w options filePath src) = true) as ->.
    { unfold JsMap.has in Ehas.
      destruct (JsMap.get (imagesToResolve st) src) as [v|] eqn:Eg; [|discriminate].
      now destruct (Hvalues _ _ Eg) as (-> & Hex & _). }
    cbn [imagesToResolve]. rewrite firstOccurrences_snoc, decide_True, app_nil_r.
    + exact IH.
    + apply elem_of_firstOccurrences. rewrite <- IH. now apply JsMap_has_keys.
  - destruct (existsSync w (resolveAbsolutePath w options filePath src));
      cbn [negb imagesToResolve]; [|now rewrite app_nil_r].
    rewrite JsMap_set_fresh
      by (unfold JsMap.has in Ehas; now destruct (JsMap.get (imagesToResolve st) src)).
    unfold JsMap.keys in *. rewrite map_app, IH, firstOccurrences_snoc.
    rewrite decide_False; [reflexivity|].
    rewrite <- elem_of_firstOccurrences, <- IH.
    change (src ∈ JsMap.keys (imagesToResolve st) -> False).
    rewrite <- JsMap_has_keys. congruence.
Qed.

(** X16: the promises are created in document order: one per accepted
    reference, at the place of the first node that carries it. *)
Theorem promises_follow_document_order (w : World) (options : Options)
    (tree : Node) (file : VFile) (filePath : string) (paths : gset string) :
  candidates file = Some (filePath, paths) ->
  relativePath <$> runs (rehypeAstroImages w options tree file)
  = firstOccurrences (acceptedReferences w options filePath paths tree).
Proof.
  intros guard.
  rewrite (pass_runs w options tree file filePath paths guard).
  rewrite relativePaths_of_runs. apply fold_visitor_keys.
Qed.

Lemma promises_follow_document_order_witness :
  relativePath <$> runs (rehypeAstroImages Sample.world Sample.options Sample.document
                           Sample.file)
  = firstOccurrences
      (acceptedReferences Sample.world Sample.options "/proj/src/pages/post.md"
         Sample.references Sample.document).
Proof.
  apply (promises_follow_document_order Sample.world Sample.options Sample.document
           Sample.file "/proj/src/pages/post.md" Sample.references).
  reflexivity.
Defined.
